(** * TEpollSocket: the non-blocking socket of the epoll server

    A shallow embedding of [src/tepollsocket.cpp] (TreeFrog framework):
    buffer size discovery, the connection identifier, the receive and
    send loops, the outbound queue and the destructor.

    Conventions.
    - C [int] and [quint64] values are [Z]; the 32-bit wrap of the atomic
      counter and the 64-bit wrap of the identifier are written out.
    - Bytes are [Byte.byte]; a buffer is a [list byte].
    - The operating system is an oracle: each system call consumes the
      next scripted reply ([len] and [errno] as the code reads them).  A
      script that is used up answers "would block" ([-1], [EAGAIN]), so
      both loops are total, by structural recursion on the script.
    - Every effect outside the object (system calls, reactor calls, log
      records, deletions, diagnostics) is appended to a chronological
      trace of [Event]s. *)

From Stdlib Require Import ZArith List Bool Lia.
From Stdlib.Strings Require Import Byte.
Import ListNotations.
Open Scope Z_scope.

(** ** Constants of the platform (Linux [errno.h], [sys/epoll.h]) *)

Definition EAGAIN : Z := 11.
Definition ECONNRESET : Z := 104.
Definition EPOLLIN : Z := 1.
Definition EPOLLOUT : Z := 4.
Definition EPOLLET : Z := Z.shiftl 1 31.

(** The mask passed to [modifyPoll] in [send()]. *)
Definition REARM_EVENTS : Z := Z.lor (Z.lor EPOLLIN EPOLLOUT) EPOLLET.

(** ** Machine integers *)

(** [int] as stored by [QAtomicInt]: two's complement on 32 bits. *)
Definition wrap_int32 (z : Z) : Z := (z + 2 ^ 31) mod 2 ^ 32 - 2 ^ 31.

(** Conversion to [uint] and to [quint64]. *)
Definition to_uint (z : Z) : Z := z mod 2 ^ 32.
Definition to_quint64 (z : Z) : Z := z mod 2 ^ 64.

(** ** Collaborators that are declared outside this source file *)

(** Modelled from the spec: the access log record ([TAccessLogger]) is
    missing from the sources; the spec gives it a settable response-byte
    count and a [write()] finalizer.  The count is kept as an unbounded
    integer. *)
Record TAccessLogger : Type := mkLogger { responseBytes : Z }.

(** Modelled from the spec: the outbound buffer ([TSendBuffer]) is missing
    from the sources; the spec gives it a bounded read window into the
    remaining bytes (clamped to what remains), an advance operation, an
    end-of-data query, and the access log record it carries. *)
Record TSendBuffer : Type := mkSendBuffer {
  sb_data : list byte;
  accessLogger : TAccessLogger
}.

(** Modelled from the spec: [buf->getData(len)], the read window of at
    most [len] bytes into the remaining bytes, and the clamped length. *)
Definition getData (buf : TSendBuffer) (len : Z) : list byte * Z :=
  let window := firstn (Z.to_nat len) (sb_data buf) in
  (window, Z.of_nat (length window)).

(** Modelled from the spec: [buf->seekData(len)], the advance operation
    consuming [len] sent bytes. *)
Definition seekData (buf : TSendBuffer) (len : Z) : TSendBuffer :=
  mkSendBuffer (skipn (Z.to_nat len) (sb_data buf)) (accessLogger buf).

(** Modelled from the spec: [buf->atEnd()], the end-of-data query. *)
Definition atEnd (buf : TSendBuffer) : bool :=
  match sb_data buf with [] => true | _ :: _ => false end.

(** Modelled from the spec: [logger.setResponseBytes(n)], the setter of
    the response-byte count.  In [send()] [logger] is the reference
    [buf->accessLogger()], so the record inside the buffer is updated. *)
Definition setResponseBytes (buf : TSendBuffer) (n : Z) : TSendBuffer :=
  mkSendBuffer (sb_data buf) (mkLogger n).

(** Modelled from the spec: [new TSendBuffer(data)], the default
    in-memory buffer wrapping raw bytes, with a fresh log record. *)
Definition newSendBuffer (data : list byte) : TSendBuffer :=
  mkSendBuffer data (mkLogger 0).

(** ** Replies of the operating system *)

(** Reply of [::send]: the returned length and [errno] after the call
    ([errno] is cleared just before it). *)
Record SendReply : Type := mkSendReply { snd_len : Z; snd_errno : Z }.

(** Reply of [::recv]: the returned length, [errno] after the call and
    the bytes the kernel stored in the region. *)
Record RecvReply : Type := mkRecvReply {
  rcv_len : Z;
  rcv_errno : Z;
  rcv_data : list byte
}.

(** Reply of [getsockopt]: the result code and the value stored on
    success. *)
Record SockOptReply : Type := mkSockOptReply { so_res : Z; so_val : Z }.

Definition send_would_block : SendReply := mkSendReply (-1) EAGAIN.
Definition recv_would_block : RecvReply := mkRecvReply (-1) EAGAIN [].

Inductive SockOpt : Type := SO_SNDBUF | SO_RCVBUF.

(** ** The trace of effects *)

Inductive Event : Type :=
| SysSend (sd : Z) (window : list byte) (reply : SendReply)
| SysRecv (sd : Z) (size : Z) (reply : RecvReply)
| SysClose (sd : Z)
| SysGetSockOpt (sd : Z) (opt : SockOpt) (reply : SockOptReply)
| ModifyPoll (identifier : Z) (events : Z)
| LogWrite (logger : TAccessLogger)
| Delete (buf : TSendBuffer)
| SystemDebug (errno : Z)
| SystemError (errno : Z) (args : list Z).

(** Bytes that one event puts on the wire: what [::send] accepted. *)
Definition wire_of_event (e : Event) : list byte :=
  match e with
  | SysSend _ window r =>
      if snd_len r >? 0 then firstn (Z.to_nat (snd_len r)) window else []
  | _ => []
  end.

(** The byte stream sent on the descriptor during a trace. *)
Definition wire (tr : list Event) : list byte :=
  flat_map wire_of_event tr.

Definition is_SysSend (e : Event) : bool :=
  match e with SysSend _ _ _ => true | _ => false end.

Definition is_LogWrite (e : Event) : bool :=
  match e with LogWrite _ => true | _ => false end.

Definition is_Delete (e : Event) : bool :=
  match e with Delete _ => true | _ => false end.

Definition is_ModifyPoll (e : Event) : bool :=
  match e with ModifyPoll _ _ => true | _ => false end.

Definition is_SysGetSockOpt (e : Event) : bool :=
  match e with SysGetSockOpt _ _ _ => true | _ => false end.

(** ** Process-wide state: the three file-scope statics *)

Record Process : Type := mkProcess {
  sendBufSize : Z;
  recvBufSize : Z;
  objectCounter : Z
}.

(** The values of the static initialisers. *)
Definition process_start : Process := mkProcess 0 0 1.

(** ** The connection object *)

(** [sd], [identifier] and [sendBuf] are the members used by this file;
    [recvBuffer] stands for the receive buffer behind the virtual
    [getRecvBuffer]/[seekRecvBuffer]. *)
Record TEpollSocket : Type := mkSocket {
  sd : Z;
  identifier : Z;
  sendBuf : list TSendBuffer;
  recvBuffer : list byte
}.

Definition set_sd (s : TEpollSocket) (d : Z) : TEpollSocket :=
  mkSocket d (identifier s) (sendBuf s) (recvBuffer s).

Definition set_sendBuf (s : TEpollSocket) (q : list TSendBuffer) : TEpollSocket :=
  mkSocket (sd s) (identifier s) q (recvBuffer s).

Definition set_recvBuffer (s : TEpollSocket) (rb : list byte) : TEpollSocket :=
  mkSocket (sd s) (identifier s) (sendBuf s) rb.

(** Modelled from the spec: [getRecvBuffer]/[seekRecvBuffer] are pure
    virtual here and implemented in a subclass that is missing from the
    sources; the spec makes the receive buffer an append-only byte sink
    with "reserve a writable region" and "commit M bytes just written".
    [written] is the content of the reserved region after the read. *)
Definition seekRecvBuffer (rb : list byte) (written : list byte) (len : Z) : list byte :=
  rb ++ firstn (Z.to_nat len) written.

(** ** Buffer size discovery: [TEpollSocket::initBuffer] *)

Definition BUF_SIZE : Z := 128 * 1024.

(** One [getsockopt] into a static [int]: the value is stored on success,
    and replaced by [BUF_SIZE] when the result is negative. *)
Definition sockopt_value (r : SockOptReply) : Z :=
  if so_res r <? 0 then BUF_SIZE else so_val r.

Definition initBuffer (snd_reply rcv_reply : SockOptReply) (socketDescriptor : Z)
    (p : Process) : Process * list Event :=
  if sendBufSize p =? 0 then
    (mkProcess (sockopt_value snd_reply) (sockopt_value rcv_reply) (objectCounter p),
     [SysGetSockOpt socketDescriptor SO_SNDBUF snd_reply;
      SysGetSockOpt socketDescriptor SO_RCVBUF rcv_reply])
  else (p, []).

(** ** The constructor and the identifier *)

(** [objectCounter.fetchAndAddOrdered(1)]: the old value is returned. *)
Definition fetchAndAddOrdered (p : Process) (v : Z) : Z * Process :=
  (objectCounter p,
   mkProcess (sendBufSize p) (recvBufSize p) (wrap_int32 (objectCounter p + v))).

(** [(h << 32) | (b & 0xffffffff)] on [quint64]. *)
Definition make_identifier (h b : Z) : Z :=
  Z.lor (to_quint64 (Z.shiftl h 32)) (Z.land b 4294967295).

(** The constructor; [now] is [QDateTime::currentDateTime().toTime_t()],
    a [uint]. *)
Definition construct (now : Z) (socketDescriptor : Z) (p : Process)
    : TEpollSocket * Process :=
  let h := to_quint64 (to_uint now) in
  let '(old, p') := fetchAndAddOrdered p 1 in
  let b := to_quint64 old in
  (mkSocket socketDescriptor (make_identifier h b) [] [], p').

(** [TEpollSocket::create]: the connection is built and the buffer sizes
    discovered only for a positive descriptor. *)
Definition create (now : Z) (snd_reply rcv_reply : SockOptReply)
    (socketDescriptor : Z) (p : Process)
    : option TEpollSocket * Process * list Event :=
  if socketDescriptor >? 0 then
    let '(sock, p1) := construct now socketDescriptor p in
    let '(p2, tr) := initBuffer snd_reply rcv_reply socketDescriptor p1 in
    (Some sock, p2, tr)
  else (None, p, []).

(** ** [TEpollSocket::close] and the destructor *)

Definition close (s : TEpollSocket) : TEpollSocket * list Event :=
  if sd s >? 0 then (set_sd s 0, [SysClose (sd s)]) else (s, []).

Definition destroy (s : TEpollSocket) : TEpollSocket * list Event :=
  let '(s1, tr) := close s in
  (set_sendBuf s1 [], tr ++ map Delete (sendBuf s1)).

(** ** The receive path: [TEpollSocket::recv] *)

(** The [for (;;)] loop: the receive buffer after the loop, the last
    [errno], the trace and the unused replies. *)
Fixpoint recv_loop (os : list RecvReply) (p : Process) (fd : Z) (rb : list byte)
    : list byte * Z * list Event * list RecvReply :=
  match os with
  | [] => (rb, rcv_errno recv_would_block,
           [SysRecv fd (recvBufSize p) recv_would_block], [])
  | r :: os' =>
      let len := rcv_len r in
      let err := rcv_errno r in
      if len <=? 0 then (rb, err, [SysRecv fd (recvBufSize p) r], os')
      else
        let '(rb', err', tr, rest) :=
          recv_loop os' p fd (seekRecvBuffer rb (rcv_data r) len) in
        (rb', err', SysRecv fd (recvBufSize p) r :: tr, rest)
  end.

(** The [switch (err)] of [recv()]: the return value and the diagnostic. *)
Definition recv_classify (err : Z) : Z * list Event :=
  if err =? EAGAIN then (0, [])
  else if (err =? 0) || (err =? ECONNRESET) then (-1, [SystemDebug err])
  else (-1, [SystemError err []]).

Definition recv (os : list RecvReply) (p : Process) (s : TEpollSocket)
    : Z * TEpollSocket * list Event * list RecvReply :=
  let '(rb, err, tr, rest) := recv_loop os p (sd s) (recvBuffer s) in
  let '(ret, diag) := recv_classify err in
  (ret, set_recvBuffer s rb, tr ++ diag, rest).

Definition recv_ret (os : list RecvReply) (p : Process) (s : TEpollSocket) : Z :=
  fst (fst (fst (recv os p s))).
Definition recv_socket (os : list RecvReply) (p : Process) (s : TEpollSocket)
    : TEpollSocket :=
  snd (fst (fst (recv os p s))).
Definition recv_trace (os : list RecvReply) (p : Process) (s : TEpollSocket)
    : list Event :=
  snd (fst (recv os p s)).

(** A read that delivers the bytes [chunk]. *)
Definition delivered (chunk : list byte) : RecvReply :=
  mkRecvReply (Z.of_nat (length chunk)) 0 chunk.

(** ** The send path: [TEpollSocket::send] *)

(** The [for (;;)] loop on the head buffer [buf]: the buffer after the
    loop, the last [err] and [len], the trace and the unused replies. *)
Fixpoint send_loop (os : list SendReply) (p : Process) (fd : Z)
    (buf : TSendBuffer) (err : Z)
    : TSendBuffer * Z * Z * list Event * list SendReply :=
  let '(data, len) := getData buf (sendBufSize p) in
  if len =? 0 then (buf, err, len, [], os)
  else
    match os with
    | [] => (buf, snd_errno send_would_block, snd_len send_would_block,
             [SysSend fd data send_would_block], [])
    | r :: os' =>
        let len := snd_len r in
        let err := snd_errno r in
        if len >? 0 then
          let buf1 := seekData buf len in
          let buf2 :=
            setResponseBytes buf1 (responseBytes (accessLogger buf1) + len) in
          let '(b, e, l, tr, rest) := send_loop os' p fd buf2 err in
          (b, e, l, SysSend fd data r :: tr, rest)
        else (buf, err, len, [SysSend fd data r], os')
    end.

(** The [switch (err)] of [send()]: the head buffer (its log record is
    marked on failure), the return value and the diagnostic. *)
Definition send_classify (buf : TSendBuffer) (err len : Z)
    : TSendBuffer * Z * list Event :=
  if (err =? 0) || (err =? EAGAIN) then (buf, 0, [])
  else if err =? ECONNRESET then
    (setResponseBytes buf (-1), -1, [SystemDebug err])
  else (setResponseBytes buf (-1), -1, [SystemError err [len]]).

(** The [err] with which the loop on [buf] ends. *)
Definition send_loop_err (os : list SendReply) (p : Process) (fd : Z)
    (buf : TSendBuffer) : Z :=
  let '(_, err, _, _, _) := send_loop os p fd buf 0 in err.

(** The [errno] left by the last [::send] of a trace, [err0] if there is
    none. *)
Definition last_send_errno (err0 : Z) (tr : list Event) : Z :=
  fold_left (fun acc e => match e with
                          | SysSend _ _ r => snd_errno r
                          | _ => acc
                          end) tr err0.

(** The head buffer as the loop leaves it. *)
Definition send_loop_buf (os : list SendReply) (p : Process) (fd : Z)
    (buf : TSendBuffer) : TSendBuffer :=
  let '(b, _, _, _, _) := send_loop os p fd buf 0 in b.

Definition isEmpty {A : Type} (q : list A) : bool :=
  match q with [] => true | _ :: _ => false end.

(** The re-arm test of [send()], taken on the queue as it is after the
    loop. *)
Definition rearm (s : TEpollSocket) (err : Z) (queue : list TSendBuffer)
    : list Event :=
  if negb (err =? EAGAIN) && negb (isEmpty queue)
  then [ModifyPoll (identifier s) REARM_EVENTS] else [].

(** The retirement of the head: the log record is written and the head
    is dequeued and deleted. *)
Definition retire (buf : TSendBuffer) (ret : Z) (rest : list TSendBuffer)
    : list TSendBuffer * list Event :=
  if atEnd buf || (ret <? 0)
  then (rest, [LogWrite (accessLogger buf); Delete buf])
  else (buf :: rest, []).

Definition send (os : list SendReply) (p : Process) (s : TEpollSocket)
    : Z * TEpollSocket * list Event * list SendReply :=
  match sendBuf s with
  | [] => (0, s, [], os)
  | buf :: rest =>
      let '(buf1, err, len, tr_loop, os') := send_loop os p (sd s) buf 0 in
      let '(buf2, ret, diag) := send_classify buf1 err len in
      let tr_rearm := rearm s err (buf2 :: rest) in
      let '(queue, tr_retire) := retire buf2 ret rest in
      (ret, set_sendBuf s queue, tr_loop ++ diag ++ tr_rearm ++ tr_retire, os')
  end.

(** The components of the result of [send()]. *)
Definition send_ret (os : list SendReply) (p : Process) (s : TEpollSocket) : Z :=
  fst (fst (fst (send os p s))).
Definition send_socket (os : list SendReply) (p : Process) (s : TEpollSocket)
    : TEpollSocket :=
  snd (fst (fst (send os p s))).
Definition send_trace (os : list SendReply) (p : Process) (s : TEpollSocket)
    : list Event :=
  snd (fst (send os p s)).

(** [enqueueSendData]: the overload taking a buffer and the overload
    taking bytes, which wraps them in a new in-memory buffer. *)
Definition enqueueSendData (buffer : TSendBuffer) (s : TEpollSocket) : TEpollSocket :=
  set_sendBuf s (sendBuf s ++ [buffer]).

Definition enqueueSendBytes (data : list byte) (s : TEpollSocket) : TEpollSocket :=
  set_sendBuf s (sendBuf s ++ [newSendBuffer data]).

(** ** Sequences of calls *)

(** Constructions in sequence, one timestamp each: the identifiers in
    order of construction and the process state afterwards (the
    descriptor does not enter the identifier). *)
Fixpoint construct_all (nows : list Z) (p : Process) : list Z * Process :=
  match nows with
  | [] => ([], p)
  | now :: nows' =>
      let '(sock, p1) := construct now 0 p in
      let '(ids, p2) := construct_all nows' p1 in
      (identifier sock :: ids, p2)
  end.

(** The identifiers a fresh process hands out, given the clock reading
    at each construction. *)
Definition identifiers (nows : list Z) : list Z :=
  fst (construct_all nows process_start).

(** The clock reads [now] at each of [n] constructions. *)
Definition same_second (now : Z) (n : Z) : list Z := repeat now (Z.to_nat n).

(** One call of [initBuffer]: the two replies the kernel would give and
    the descriptor. *)
Record InitCall : Type := mkInitCall {
  ic_snd : SockOptReply;
  ic_rcv : SockOptReply;
  ic_sd : Z
}.

Fixpoint initBuffer_all (calls : list InitCall) (p : Process)
    : Process * list Event :=
  match calls with
  | [] => (p, [])
  | c :: calls' =>
      let '(p1, tr1) := initBuffer (ic_snd c) (ic_rcv c) (ic_sd c) p in
      let '(p2, tr2) := initBuffer_all calls' p1 in
      (p2, tr1 ++ tr2)
  end.

(** What the owner of a connection does with its outbound side. *)
Inductive Op : Type :=
| OpEnqueue (buffer : TSendBuffer)
| OpEnqueueBytes (data : list byte)
| OpSend (os : list SendReply).

Definition step (p : Process) (op : Op) (s : TEpollSocket)
    : TEpollSocket * list Event :=
  match op with
  | OpEnqueue b => (enqueueSendData b s, [])
  | OpEnqueueBytes d => (enqueueSendBytes d s, [])
  | OpSend os => let '(_, s', tr, _) := send os p s in (s', tr)
  end.

Fixpoint run (p : Process) (ops : list Op) (s : TEpollSocket)
    : TEpollSocket * list Event :=
  match ops with
  | [] => (s, [])
  | op :: ops' =>
      let '(s1, tr1) := step p op s in
      let '(s2, tr2) := run p ops' s1 in
      (s2, tr1 ++ tr2)
  end.

(** The payloads handed to the connection, in enqueue order. *)
Fixpoint enqueued (ops : list Op) : list (list byte) :=
  match ops with
  | [] => []
  | OpEnqueue b :: ops' => sb_data b :: enqueued ops'
  | OpEnqueueBytes d :: ops' => d :: enqueued ops'
  | OpSend _ :: ops' => enqueued ops'
  end.

(** [::send] never reports more bytes than it was given. *)
Definition send_reply_honest (e : Event) : Prop :=
  match e with
  | SysSend _ window r => snd_len r <= Z.of_nat (length window)
  | _ => True
  end.

(** The buffers deleted during a trace, in order. *)
Definition deleted (tr : list Event) : list TSendBuffer :=
  flat_map (fun e => match e with Delete b => [b] | _ => [] end) tr.

(** The payloads that a queue still stands for, when [head_sent] is what
    has gone out of its head so far. *)
Definition pending (head_sent : list byte) (queue : list TSendBuffer)
    : list (list byte) :=
  match queue with
  | [] => []
  | h :: t => (head_sent ++ sb_data h) :: map sb_data t
  end.

(** The state of the outbound side against the payloads [all] handed to
    the connection and the bytes [sent] on the wire: each retired buffer
    is split into the part sent and the part dropped with it. *)
Definition fifo_state (all : list (list byte)) (queue : list TSendBuffer)
    (sent : list byte) (dropped : list (list byte)) : Prop :=
  exists (retired : list (list byte * list byte)) (head_sent : list byte),
    all = map (fun x => fst x ++ snd x) retired ++ pending head_sent queue
    /\ sent = concat (map fst retired) ++ head_sent
    /\ dropped = map snd retired
    /\ (queue = [] -> head_sent = []).

(** ** The remaining members: [setSocketDescpriter] and [accept] *)

Definition setSocketDescpriter (socketDescriptor : Z) (s : TEpollSocket)
    : TEpollSocket :=
  set_sd s socketDescriptor.

(** Flags of [accept4] (Linux [sys/socket.h]). *)
Definition SOCK_CLOEXEC : Z := 524288.
Definition SOCK_NONBLOCK : Z := 2048.

(** Reply of [tf_accept4], a wrapper of the system call declared outside
    this file: the descriptor returned and [errno] after the call. *)
Record AcceptReply : Type := mkAcceptReply { acc_fd : Z; acc_errno : Z }.

(** Effects of [accept()]: the system call, the warning, and what
    [create()] does. *)
Inductive AcceptEvent : Type :=
| SysAccept4 (listeningSocket : Z) (flags : Z) (reply : AcceptReply)
| SystemWarn (errno : Z)
| Created (e : Event).

(** [TEpollSocket::accept].  The peer address is handed to the
    constructor, which stores it; no code of this file reads it, and the
    connection record does not carry it. *)
Definition accept (reply : AcceptReply) (now : Z)
    (snd_reply rcv_reply : SockOptReply) (listeningSocket : Z) (p : Process)
    : option TEpollSocket * Process * list AcceptEvent :=
  let call :=
    SysAccept4 listeningSocket (Z.lor SOCK_CLOEXEC SOCK_NONBLOCK) reply in
  let actfd := acc_fd reply in
  let err := acc_errno reply in
  if actfd <? 0 then
    (None, p, call :: (if negb (err =? EAGAIN) then [SystemWarn err] else []))
  else
    let '(sock, p', tr) := create now snd_reply rcv_reply actfd p in
    (sock, p', call :: map Created tr).

(** ** Readings of a trace *)

(** Bytes that one event commits to the receive buffer: the first
    [rcv_len] bytes of a positive read. *)
Definition received_of_event (e : Event) : list byte :=
  match e with
  | SysRecv _ _ r =>
      if rcv_len r <=? 0 then [] else firstn (Z.to_nat (rcv_len r)) (rcv_data r)
  | _ => []
  end.

Definition received (tr : list Event) : list byte :=
  flat_map received_of_event tr.

(** The access log records written during a trace, in order. *)
Definition logs_written (tr : list Event) : list TAccessLogger :=
  flat_map (fun e => match e with LogWrite l => [l] | _ => [] end) tr.

Definition is_SysClose (e : Event) : bool :=
  match e with SysClose _ => true | _ => false end.

Definition is_SysRecv (e : Event) : bool :=
  match e with SysRecv _ _ _ => true | _ => false end.



(** What one [::send] of [send()] may be given: the connection's own
    descriptor and a non-empty window of at most [sendBufSize] bytes. *)
Definition send_call_bounded (p : Process) (s : TEpollSocket) (e : Event) : Prop :=
  match e with
  | SysSend fd window _ =>
      fd = sd s /\ 0 < Z.of_nat (length window) <= sendBufSize p
  | _ => True
  end.

(** The buffers handed to the connection, in enqueue order, as they are
    when they enter the queue. *)
Fixpoint enqueued_buffers (ops : list Op) : list TSendBuffer :=
  match ops with
  | [] => []
  | OpEnqueue b :: ops' => b :: enqueued_buffers ops'
  | OpEnqueueBytes d :: ops' => newSendBuffer d :: enqueued_buffers ops'
  | OpSend _ :: ops' => enqueued_buffers ops'
  end.

(** [b'] is the buffer [b] further on: what it holds is what [b] held
    with some leading bytes consumed. *)
Definition advanced (b b' : TSendBuffer) : Prop :=
  exists n : nat, sb_data b' = skipn n (sb_data b).

(** ** The send path with the count in the arithmetic of its type *)

(** The type of the response-byte count is declared outside this file.
    [narrow] stands for its arithmetic: the sum [responseBytes() + len]
    computed in [send()] is stored as [narrow] of the exact sum.  For a
    count held in an [int], [narrow] is [wrap_int32]; [send_loop] is the
    case where [narrow] changes nothing. *)
Fixpoint send_loop_narrow (narrow : Z -> Z) (os : list SendReply) (p : Process)
    (fd : Z) (buf : TSendBuffer) (err : Z)
    : TSendBuffer * Z * Z * list Event * list SendReply :=
  let '(data, len) := getData buf (sendBufSize p) in
  if len =? 0 then (buf, err, len, [], os)
  else
    match os with
    | [] => (buf, snd_errno send_would_block, snd_len send_would_block,
             [SysSend fd data send_would_block], [])
    | r :: os' =>
        let len := snd_len r in
        let err := snd_errno r in
        if len >? 0 then
          let buf1 := seekData buf len in
          let buf2 :=
            setResponseBytes buf1
              (narrow (responseBytes (accessLogger buf1) + len)) in
          let '(b, e, l, tr, rest) := send_loop_narrow narrow os' p fd buf2 err in
          (b, e, l, SysSend fd data r :: tr, rest)
        else (buf, err, len, [SysSend fd data r], os')
    end.

Definition send_narrow (narrow : Z -> Z) (os : list SendReply) (p : Process)
    (s : TEpollSocket) : Z * TEpollSocket * list Event * list SendReply :=
  match sendBuf s with
  | [] => (0, s, [], os)
  | buf :: rest =>
      let '(buf1, err, len, tr_loop, os') :=
        send_loop_narrow narrow os p (sd s) buf 0 in
      let '(buf2, ret, diag) := send_classify buf1 err len in
      let tr_rearm := rearm s err (buf2 :: rest) in
      let '(queue, tr_retire) := retire buf2 ret rest in
      (ret, set_sendBuf s queue, tr_loop ++ diag ++ tr_rearm ++ tr_retire, os')
  end.

Definition step_narrow (narrow : Z -> Z) (p : Process) (op : Op)
    (s : TEpollSocket) : TEpollSocket * list Event :=
  match op with
  | OpEnqueue b => (enqueueSendData b s, [])
  | OpEnqueueBytes d => (enqueueSendBytes d s, [])
  | OpSend os => let '(_, s', tr, _) := send_narrow narrow os p s in (s', tr)
  end.

Fixpoint run_narrow (narrow : Z -> Z) (p : Process) (ops : list Op)
    (s : TEpollSocket) : TEpollSocket * list Event :=
  match ops with
  | [] => (s, [])
  | op :: ops' =>
      let '(s1, tr1) := step_narrow narrow p op s in
      let '(s2, tr2) := run_narrow narrow p ops' s1 in
      (s2, tr1 ++ tr2)
  end.



(** ** Sample values used by the closed examples *)

Definition sample_payload : list byte := [x61; x62; x63; x64; x65].
Definition sample_buffer : TSendBuffer := newSendBuffer sample_payload.
Definition sample_process : Process := mkProcess 2 2 1.
Definition sample_socket : TEpollSocket :=
  mkSocket 7 99 [sample_buffer; newSendBuffer [x78]] [].
Definition idle_socket : TEpollSocket := mkSocket 7 99 [] [].
Definition sample_ops : list Op :=
  [OpEnqueueBytes [x61; x62; x63];
   OpSend [mkSendReply 2 0];
   OpEnqueueBytes [x64; x65];
   OpSend [mkSendReply 1 0];
   OpSend [mkSendReply 2 0]].
Definition lossy_ops : list Op :=
  [OpEnqueueBytes sample_payload;
   OpEnqueueBytes [x78];
   OpSend [mkSendReply 2 0; mkSendReply (-1) ECONNRESET];
   OpSend [mkSendReply 1 0]].
Definition sample_clock : list Z := [1700000000; 1700000000; 1700000001].

(** * The send path *)

(** ** Shape of one call *)

Lemma send_empty_queue (os : list SendReply) (p : Process) (s : TEpollSocket) :
  sendBuf s = [] -> send os p s = (0, s, [], os).
Proof.
  intros Hq. unfold send. now rewrite Hq.
Qed.

Lemma send_unfold (os : list SendReply) (p : Process) (s : TEpollSocket)
    buf rest buf1 err len tr_loop os1 :
  sendBuf s = buf :: rest ->
  send_loop os p (sd s) buf 0 = (buf1, err, len, tr_loop, os1) ->
  send os p s =
    (snd (fst (send_classify buf1 err len)),
     set_sendBuf s
       (fst (retire (fst (fst (send_classify buf1 err len)))
                    (snd (fst (send_classify buf1 err len))) rest)),
     tr_loop ++ snd (send_classify buf1 err len)
       ++ rearm s err (fst (fst (send_classify buf1 err len)) :: rest)
       ++ snd (retire (fst (fst (send_classify buf1 err len)))
                      (snd (fst (send_classify buf1 err len))) rest),
     os1).
Proof.
  intros Hq Hloop. unfold send. rewrite Hq, Hloop.
  destruct (send_classify buf1 err len) as [[buf2 ret] diag]. cbn [fst snd].
  destruct (retire buf2 ret rest) as [queue tr_retire]. reflexivity.
Qed.

(** The loop emits system calls only. *)
Lemma send_loop_only_SysSend (os : list SendReply) (p : Process) (fd : Z) :
  forall buf err buf1 err1 len tr os1,
    send_loop os p fd buf err = (buf1, err1, len, tr, os1) ->
    forall e, In e tr -> is_SysSend e = true.
Proof.
  induction os as [|r os IH]; intros buf err buf1 err1 len tr os1 H e He;
    cbn [send_loop] in H; unfold getData in H.
  - destruct (_ =? 0); inversion H; subst; cbn in He; [contradiction|].
    destruct He as [<-|[]]. reflexivity.
  - destruct (_ =? 0).
    + inversion H; subst. contradiction.
    + destruct (snd_len r >? 0).
      * destruct (send_loop os p fd _ _) as [[[[b e0] l] tr0] rest] eqn:Hrec.
        inversion H; subst. destruct He as [<-|He]; [reflexivity|].
        eapply IH; eauto.
      * inversion H; subst. destruct He as [<-|[]]. reflexivity.
Qed.

(** The [err] that [send()] classifies is the [errno] of the last
    [::send] it made, and 0 when it made none. *)
Lemma send_loop_err_is_last_errno (os : list SendReply) (p : Process) (fd : Z) :
  forall buf err buf1 err1 len tr os1,
    send_loop os p fd buf err = (buf1, err1, len, tr, os1) ->
    err1 = last_send_errno err tr.
Proof.
  induction os as [|r os IH]; intros buf err buf1 err1 len tr os1 H;
    cbn [send_loop] in H; unfold getData in H.
  - destruct (_ =? 0); inversion H; subst; reflexivity.
  - destruct (_ =? 0).
    + inversion H; subst. reflexivity.
    + destruct (snd_len r >? 0).
      * destruct (send_loop os p fd _ _) as [[[[b e0] l] tr0] rest] eqn:Hrec.
        inversion H; subst. cbn [last_send_errno fold_left].
        exact (IH _ _ _ _ _ _ _ Hrec).
      * inversion H; subst. reflexivity.
Qed.

Lemma send_classify_only_diag (buf : TSendBuffer) (err len : Z) :
  forall e, In e (snd (send_classify buf err len)) ->
    is_ModifyPoll e = false /\ is_LogWrite e = false /\ is_Delete e = false
    /\ is_SysSend e = false.
Proof.
  intros e. unfold send_classify.
  destruct ((err =? 0) || (err =? EAGAIN)); [intros []|].
  destruct (err =? ECONNRESET); intros [<-|[]]; cbn; auto.
Qed.

Lemma filter_none {A : Type} (f : A -> bool) (l : list A) :
  (forall x, In x l -> f x = false) -> filter f l = [].
Proof.
  induction l as [|a l IH]; intros H; cbn; [reflexivity|].
  rewrite (H a (or_introl eq_refl)). apply IH. intros x Hx. apply H. now right.
Qed.

Lemma send_loop_no_other (os : list SendReply) (p : Process) (fd : Z)
    buf err buf1 err1 len tr os1 (f : Event -> bool) :
  send_loop os p fd buf err = (buf1, err1, len, tr, os1) ->
  (forall a b c, f (SysSend a b c) = false) ->
  filter f tr = [].
Proof.
  intros H Hf. apply filter_none. intros e He.
  pose proof (send_loop_only_SysSend _ _ _ _ _ _ _ _ _ _ H e He) as Hs.
  destruct e; try discriminate Hs. apply Hf.
Qed.

Lemma retire_events (buf : TSendBuffer) (ret : Z) (rest : list TSendBuffer) :
  snd (retire buf ret rest) = []
  \/ snd (retire buf ret rest) = [LogWrite (accessLogger buf); Delete buf].
Proof.
  unfold retire. destruct (atEnd buf || (ret <? 0)); cbn; auto.
Qed.

(** The reactor is addressed by the re-arm test and by nothing else. *)
Lemma send_modifyPoll_events (os : list SendReply) (p : Process)
    (s : TEpollSocket) buf rest :
  sendBuf s = buf :: rest ->
  filter is_ModifyPoll (send_trace os p s)
    = if send_loop_err os p (sd s) buf =? EAGAIN then []
      else [ModifyPoll (identifier s) REARM_EVENTS].
Proof.
  intros Hq. unfold send_loop_err, send_trace.
  destruct (send_loop os p (sd s) buf 0) as [[[[buf1 err] len] tr_loop] os1] eqn:Hloop.
  rewrite (send_unfold _ _ _ _ _ _ _ _ _ _ Hq Hloop). cbn [fst snd].
  rewrite !filter_app.
  rewrite (send_loop_no_other _ _ _ _ _ _ _ _ _ _ is_ModifyPoll Hloop) by reflexivity.
  rewrite (filter_none is_ModifyPoll (snd (send_classify buf1 err len)))
    by (intros x Hx; now apply send_classify_only_diag in Hx).
  rewrite (filter_none is_ModifyPoll (snd (retire _ _ rest))).
  2:{ intros x Hx. destruct (retire_events (fst (fst (send_classify buf1 err len)))
        (snd (fst (send_classify buf1 err len))) rest) as [E|E];
        rewrite E in Hx; cbn in Hx; intuition (subst; reflexivity). }
  unfold rearm. cbn [isEmpty negb andb app]. rewrite andb_true_r, app_nil_r.
  destruct (err =? EAGAIN); reflexivity.
Qed.

(** C9: with an empty outbound queue [send()] returns 0 at once: no
    system call is made (the trace is empty, the script of replies is
    not consumed), and the connection (its queue and the log records in
    it) is returned unchanged; nothing is asked of the reactor. *)
Theorem send_noop_on_empty_queue (os : list SendReply) (p : Process)
    (s : TEpollSocket) :
  sendBuf s = [] ->
  send os p s = (0, s, [], os).
Proof.
  exact (send_empty_queue os p s).
Qed.

Lemma send_noop_on_empty_queue_witness :
  sendBuf idle_socket = [] /\
  send [mkSendReply 2 0] sample_process idle_socket
    = (0, idle_socket, [], [mkSendReply 2 0]).
Proof.
  split; [reflexivity|].
  apply (send_noop_on_empty_queue [mkSendReply 2 0] sample_process idle_socket).
  reflexivity.
Defined.

(** C6: [send()] asks the reactor to re-arm the connection exactly when
    the queue is non-empty after the loop and the loop did not end on
    [EAGAIN]; it asks at most once, and always for read and write
    readiness, edge-triggered ([EPOLLIN | EPOLLOUT | EPOLLET]). *)
Theorem send_rearms_exactly_when (os : list SendReply) (p : Process)
    (s : TEpollSocket) :
  let tr := send_trace os p s in
  (In (ModifyPoll (identifier s) REARM_EVENTS) tr <->
     exists buf rest, sendBuf s = buf :: rest
                      /\ send_loop_err os p (sd s) buf <> EAGAIN)
  /\ (forall e, In e tr -> is_ModifyPoll e = true ->
        e = ModifyPoll (identifier s) REARM_EVENTS)
  /\ (length (filter is_ModifyPoll tr) <= 1)%nat
  /\ Z.land REARM_EVENTS EPOLLIN = EPOLLIN
  /\ Z.land REARM_EVENTS EPOLLOUT = EPOLLOUT
  /\ Z.land REARM_EVENTS EPOLLET = EPOLLET.
Proof.
  cbv zeta.
  destruct (sendBuf s) as [|buf rest] eqn:Hq.
  - unfold send_trace. rewrite (send_empty_queue os p s Hq). cbn [fst snd].
    split; [split; [intros []|intros (b & r & Hb & _); discriminate Hb]|].
    split; [intros e []|]. split; [cbn; lia|]. repeat split.
  - pose proof (send_modifyPoll_events os p s buf rest Hq) as Hf.
    assert (Hin : forall e, In e (send_trace os p s) ->
                    is_ModifyPoll e = true ->
                    In e (filter is_ModifyPoll (send_trace os p s))).
    { intros e He Hm. apply filter_In. now split. }
    repeat split; try reflexivity.
    + intros H. exists buf, rest. split; [reflexivity|].
      apply Hin in H; [|reflexivity]. rewrite Hf in H.
      destruct (send_loop_err os p (sd s) buf =? EAGAIN) eqn:E; [destruct H|].
      now apply Z.eqb_neq.
    + intros (b & r & Hb & Hne). inversion Hb; subst b r.
      apply Z.eqb_neq in Hne. rewrite Hne in Hf.
      assert (H : In (ModifyPoll (identifier s) REARM_EVENTS)
                    (filter is_ModifyPoll (send_trace os p s))).
      { rewrite Hf. now left. }
      now apply filter_In in H.
    + intros e He Hm. specialize (Hin e He Hm). rewrite Hf in Hin.
      destruct (_ =? EAGAIN); [destruct Hin|].
      destruct Hin as [<-|[]]. reflexivity.
    + rewrite Hf. destruct (_ =? EAGAIN); cbn; lia.
Qed.

(** The trace of a call on a non-empty queue, in the order of the code:
    system calls of the loop, the diagnostic, the re-arm, the
    retirement. *)
Lemma send_trace_shape (os : list SendReply) (p : Process) (s : TEpollSocket)
    buf rest :
  sendBuf s = buf :: rest ->
  exists tr_loop diag tr_retire,
    send_trace os p s
      = tr_loop ++ diag
        ++ (if send_loop_err os p (sd s) buf =? EAGAIN then []
            else [ModifyPoll (identifier s) REARM_EVENTS])
        ++ tr_retire
    /\ (forall e, In e (tr_loop ++ diag) ->
          is_LogWrite e = false /\ is_Delete e = false)
    /\ tr_retire
        = snd (retire (fst (fst (send_classify (send_loop_buf os p (sd s) buf)
                                   (send_loop_err os p (sd s) buf) 0)))
                      (send_ret os p s) rest)
    /\ sendBuf (send_socket os p s)
        = fst (retire (fst (fst (send_classify (send_loop_buf os p (sd s) buf)
                                   (send_loop_err os p (sd s) buf) 0)))
                      (send_ret os p s) rest)
    /\ send_ret os p s
        = snd (fst (send_classify (send_loop_buf os p (sd s) buf)
                      (send_loop_err os p (sd s) buf) 0)).
Proof.
  intros Hq. unfold send_loop_err, send_loop_buf, send_trace, send_ret, send_socket.
  destruct (send_loop os p (sd s) buf 0) as [[[[buf1 err] len] tr_loop] os1] eqn:Hloop.
  rewrite (send_unfold _ _ _ _ _ _ _ _ _ _ Hq Hloop). cbn [fst snd].
  assert (Hc : fst (send_classify buf1 err len) = fst (send_classify buf1 err 0)).
  { unfold send_classify. destruct ((err =? 0) || (err =? EAGAIN)); [reflexivity|].
    destruct (err =? ECONNRESET); reflexivity. }
  exists tr_loop, (snd (send_classify buf1 err len)),
    (snd (retire (fst (fst (send_classify buf1 err len)))
                 (snd (fst (send_classify buf1 err len))) rest)).
  rewrite <- Hc. repeat split; try reflexivity.
  - unfold rearm. cbn [isEmpty negb]. rewrite andb_true_r.
    destruct (err =? EAGAIN); reflexivity.
  - apply in_app_or in H. destruct H as [H|H].
    + apply (send_loop_only_SysSend _ _ _ _ _ _ _ _ _ _ Hloop) in H.
      destruct e; try discriminate H; reflexivity.
    + now apply send_classify_only_diag in H.
  - apply in_app_or in H. destruct H as [H|H].
    + apply (send_loop_only_SysSend _ _ _ _ _ _ _ _ _ _ Hloop) in H.
      destruct e; try discriminate H; reflexivity.
    + now apply send_classify_only_diag in H.
Qed.

Lemma last_send_errno_skip (err0 : Z) (tr : list Event) :
  (forall e, In e tr -> is_SysSend e = false) ->
  last_send_errno err0 tr = err0.
Proof.
  revert err0. induction tr as [|e tr IH]; intros err0 H; [reflexivity|].
  cbn [last_send_errno fold_left].
  assert (He : is_SysSend e = false) by (apply H; now left).
  destruct e; try discriminate He; apply IH; intros x Hx; apply H; now right.
Qed.

(** The [err] of the loop can be read off the trace of the call: it is
    the [errno] of the last [::send] made, and 0 when none was made. *)
Lemma send_loop_err_in_trace (os : list SendReply) (p : Process)
    (s : TEpollSocket) buf rest :
  sendBuf s = buf :: rest ->
  send_loop_err os p (sd s) buf = last_send_errno 0 (send_trace os p s).
Proof.
  intros Hq. unfold send_loop_err, send_trace.
  destruct (send_loop os p (sd s) buf 0) as [[[[buf1 err] len] tr_loop] os1] eqn:Hloop.
  rewrite (send_unfold _ _ _ _ _ _ _ _ _ _ Hq Hloop). cbn [fst snd].
  unfold last_send_errno. rewrite fold_left_app.
  fold (last_send_errno 0 tr_loop).
  rewrite <- (send_loop_err_is_last_errno _ _ _ _ _ _ _ _ _ _ Hloop).
  symmetry. apply last_send_errno_skip. intros e He.
  apply in_app_or in He. destruct He as [He|He].
  - now apply send_classify_only_diag in He.
  - apply in_app_or in He. destruct He as [He|He].
    + unfold rearm in He.
      destruct (negb (err =? EAGAIN) && negb (isEmpty _)); [|destruct He].
      destruct He as [<-|[]]. reflexivity.
    + destruct (retire_events (fst (fst (send_classify buf1 err len)))
                  (snd (fst (send_classify buf1 err len))) rest) as [E|E];
        rewrite E in He; cbn in He; intuition (subst; reflexivity).
Qed.

(** C10: on a non-empty queue, whenever the loop ends on anything but
    [EAGAIN], [send()] asks the reactor to re-arm, and does so before any
    retirement (no log record written, nothing deleted yet); this
    includes the call in which the head is sent to its end without error
    and retired, so that with no later entry the queue is empty although
    interest was just re-armed. *)
Theorem send_rearm_precedes_retirement (os : list SendReply) (p : Process)
    (s : TEpollSocket) (buf : TSendBuffer) (rest : list TSendBuffer) :
  sendBuf s = buf :: rest ->
  send_loop_err os p (sd s) buf <> EAGAIN ->
  exists pre post,
    send_trace os p s = pre ++ ModifyPoll (identifier s) REARM_EVENTS :: post
    /\ (forall e, In e pre -> is_LogWrite e = false /\ is_Delete e = false)
    /\ (send_loop_err os p (sd s) buf = 0 ->
        atEnd (send_loop_buf os p (sd s) buf) = true ->
        send_ret os p s = 0
        /\ sendBuf (send_socket os p s) = rest
        /\ post = [LogWrite (accessLogger (send_loop_buf os p (sd s) buf));
                   Delete (send_loop_buf os p (sd s) buf)]).
Proof.
  intros Hq Hne.
  destruct (send_trace_shape os p s buf rest Hq)
    as (tr_loop & diag & tr_retire & Htr & Hpre & Hret & Hqueue & Hr).
  apply Z.eqb_neq in Hne. rewrite Hne in Htr.
  exists (tr_loop ++ diag), tr_retire. split; [|split].
  - rewrite Htr. now rewrite app_assoc.
  - exact Hpre.
  - intros H0 Hend. rewrite Hr in Hret, Hqueue. rewrite Hr, Hqueue, Hret.
    rewrite H0. unfold send_classify. cbn [Z.eqb orb fst snd]. unfold retire.
    rewrite Hend. cbn. auto.
Qed.

Lemma send_rearm_precedes_retirement_witness :
  exists pre post,
    send_trace [mkSendReply 1 0] sample_process (mkSocket 7 99 [newSendBuffer [x78]] [])
      = pre ++ ModifyPoll 99 REARM_EVENTS :: post
    /\ sendBuf (send_socket [mkSendReply 1 0] sample_process
                  (mkSocket 7 99 [newSendBuffer [x78]] [])) = []
    /\ post = [LogWrite (mkLogger 1); Delete (mkSendBuffer [] (mkLogger 1))].
Proof.
  destruct (send_rearm_precedes_retirement [mkSendReply 1 0] sample_process
              (mkSocket 7 99 [newSendBuffer [x78]] []) (newSendBuffer [x78]) [])
    as (pre & post & Htr & _ & Hend); [reflexivity | vm_compute; discriminate |].
  exists pre, post. split; [exact Htr|].
  destruct Hend as (_ & Hq & Hpost); [reflexivity | reflexivity |].
  split; [exact Hq | exact Hpost].
Defined.

(** C5: when the loop on the head ends with [ECONNRESET] or any other
    error (an [err] that is neither 0 nor [EAGAIN]), the head's response
    byte count is set to -1, its log record is written with that count,
    the head is dequeued and deleted, [send()] returns -1 and the queue
    that remains is exactly the later entries, untouched.  When the loop
    ends without error and the head is at its end, the head is retired
    the same way with its count as accumulated, and [send()] returns 0. *)
Theorem send_error_retires_head (os : list SendReply) (p : Process)
    (s : TEpollSocket) (buf : TSendBuffer) (rest : list TSendBuffer) :
  sendBuf s = buf :: rest ->
  let err := send_loop_err os p (sd s) buf in
  let buf1 := send_loop_buf os p (sd s) buf in
  (err <> 0 -> err <> EAGAIN ->
     send_ret os p s = -1
     /\ sendBuf (send_socket os p s) = rest
     /\ exists before,
          send_trace os p s
            = before ++ [LogWrite (mkLogger (-1));
                         Delete (setResponseBytes buf1 (-1))]
          /\ forall e, In e before ->
               is_LogWrite e = false /\ is_Delete e = false)
  /\ (err = 0 \/ err = EAGAIN -> atEnd buf1 = true ->
     send_ret os p s = 0
     /\ sendBuf (send_socket os p s) = rest
     /\ exists before,
          send_trace os p s
            = before ++ [LogWrite (accessLogger buf1); Delete buf1]
          /\ forall e, In e before ->
               is_LogWrite e = false /\ is_Delete e = false).
Proof.
  intros Hq err buf1.
  destruct (send_trace_shape os p s buf rest Hq)
    as (tr_loop & diag & tr_retire & Htr & Hpre & Hret & Hqueue & Hr).
  fold err in Htr, Hret, Hqueue, Hr. fold buf1 in Hret, Hqueue, Hr.
  assert (Hbefore : forall e,
            In e (tr_loop ++ diag ++
                  (if err =? EAGAIN then []
                   else [ModifyPoll (identifier s) REARM_EVENTS])) ->
            is_LogWrite e = false /\ is_Delete e = false).
  { intros e He. rewrite app_assoc in He. apply in_app_or in He.
    destruct He as [He|He]; [now apply Hpre|].
    destruct (err =? EAGAIN); [destruct He|].
    destruct He as [<-|[]]. split; reflexivity. }
  split.
  - intros H0 Hag.
    assert (Hcl : send_classify buf1 err 0
                  = (setResponseBytes buf1 (-1), -1,
                     snd (send_classify buf1 err 0))).
    { unfold send_classify. apply Z.eqb_neq in H0, Hag. rewrite H0, Hag.
      cbn [orb]. destruct (err =? ECONNRESET); reflexivity. }
    rewrite Hr in Hret, Hqueue. rewrite Hcl in Hr, Hret, Hqueue.
    cbn [fst snd] in Hr, Hret, Hqueue. unfold retire in Hret, Hqueue.
    replace (-1 <? 0) with true in Hret, Hqueue by reflexivity.
    rewrite orb_true_r in Hret, Hqueue. cbn [fst snd] in Hret, Hqueue.
    split; [exact Hr|]. split; [exact Hqueue|].
    eexists. split; [|exact Hbefore].
    rewrite Htr, Hret. cbn [accessLogger setResponseBytes].
    now rewrite !app_assoc.
  - intros H0 Hend.
    assert (Hcl : send_classify buf1 err 0 = (buf1, 0, [])).
    { unfold send_classify.
      destruct H0 as [-> | ->]; reflexivity. }
    rewrite Hr in Hret, Hqueue. rewrite Hcl in Hr, Hret, Hqueue.
    cbn [fst snd] in Hr, Hret, Hqueue. unfold retire in Hret, Hqueue.
    rewrite Hend in Hret, Hqueue. cbn [orb fst snd] in Hret, Hqueue.
    split; [exact Hr|]. split; [exact Hqueue|].
    eexists. split; [|exact Hbefore].
    rewrite Htr, Hret. now rewrite !app_assoc.
Qed.

Lemma send_error_retires_head_witness :
  send_ret [mkSendReply 2 0; mkSendReply (-1) ECONNRESET] sample_process
      sample_socket = -1
  /\ sendBuf (send_socket [mkSendReply 2 0; mkSendReply (-1) ECONNRESET]
                sample_process sample_socket) = [newSendBuffer [x78]].
Proof.
  destruct (send_error_retires_head
              [mkSendReply 2 0; mkSendReply (-1) ECONNRESET] sample_process
              sample_socket sample_buffer [newSendBuffer [x78]] eq_refl)
    as [Herr _].
  destruct Herr as (Hr & Hq & _); [vm_compute; discriminate ..|].
  split; [exact Hr | exact Hq].
Defined.

(** * The receive path *)

(** The loop over a run of positive reads [rs] ended by a non-positive
    read [t]: every read commits its first [rcv_len] bytes, and [err] is
    the [errno] of [t]. *)
Lemma recv_loop_prefix (p : Process) (fd : Z) (t : RecvReply)
    (more : list RecvReply) :
  rcv_len t <= 0 ->
  forall (rs : list RecvReply) (rb : list byte),
    Forall (fun r => 0 < rcv_len r) rs ->
    recv_loop (rs ++ t :: more) p fd rb
      = (rb ++ flat_map (fun r => firstn (Z.to_nat (rcv_len r)) (rcv_data r)) rs,
         rcv_errno t,
         map (SysRecv fd (recvBufSize p)) (rs ++ [t]),
         more).
Proof.
  intros Ht. induction rs as [|r rs IH]; intros rb Hpos.
  - cbn. apply Z.leb_le in Ht. rewrite Ht. now rewrite app_nil_r.
  - inversion Hpos as [|? ? Hr Hrs]; subst.
    cbn [app recv_loop flat_map map].
    assert (E : (rcv_len r <=? 0) = false) by (apply Z.leb_gt; exact Hr).
    rewrite E, (IH _ Hrs). unfold seekRecvBuffer. now rewrite <- app_assoc.
Qed.

Lemma flat_map_delivered (chunks : list (list byte)) :
  flat_map (fun r => firstn (Z.to_nat (rcv_len r)) (rcv_data r))
           (map delivered chunks)
  = concat chunks.
Proof.
  induction chunks as [|c cs IH]; [reflexivity|].
  cbn [map flat_map concat delivered rcv_len rcv_data].
  rewrite Nat2Z.id, firstn_all, IH. reflexivity.
Qed.

Lemma delivered_positive (chunks : list (list byte)) :
  Forall (fun c => c <> []) chunks ->
  Forall (fun r => 0 < rcv_len r) (map delivered chunks).
Proof.
  induction 1 as [|c cs Hc _ IH]; constructor; [|exact IH].
  destruct c; [contradiction|]. cbn [delivered rcv_len length]. lia.
Qed.

(** C4: when the kernel delivers the chunks [chunks] (each read positive,
    however the bytes are split) and the next read would block, [recv()]
    appends exactly those bytes, in order, to the receive buffer (K bytes
    for K the total delivered) and returns 0; the same holds when the
    would-block reply is any non-positive read with [errno = EAGAIN]. *)
Theorem recv_commits_delivered_bytes (chunks : list (list byte))
    (wb : RecvReply) (more : list RecvReply) (p : Process) (s : TEpollSocket) :
  Forall (fun c => c <> []) chunks ->
  rcv_len wb <= 0 ->
  rcv_errno wb = EAGAIN ->
  recv (map delivered chunks ++ wb :: more) p s
    = (0,
       set_recvBuffer s (recvBuffer s ++ concat chunks),
       map (SysRecv (sd s) (recvBufSize p)) (map delivered chunks ++ [wb]),
       more)
  /\ length (recvBuffer (recv_socket (map delivered chunks ++ wb :: more) p s))
     = (length (recvBuffer s) + length (concat chunks))%nat.
Proof.
  intros Hne Hlen Herr.
  assert (E : recv (map delivered chunks ++ wb :: more) p s
              = (0, set_recvBuffer s (recvBuffer s ++ concat chunks),
                 map (SysRecv (sd s) (recvBufSize p)) (map delivered chunks ++ [wb]),
                 more)).
  { unfold recv.
    rewrite (recv_loop_prefix p (sd s) wb more Hlen _ _ (delivered_positive _ Hne)).
    rewrite flat_map_delivered, Herr. cbn. now rewrite app_nil_r. }
  split; [exact E|].
  unfold recv_socket. rewrite E. cbn. apply length_app.
Qed.

Lemma recv_commits_delivered_bytes_witness :
  recvBuffer (recv_socket
      (map delivered [[x61; x62]; [x63]; [x64; x65]] ++ recv_would_block :: [])
      sample_process idle_socket)
  = sample_payload.
Proof.
  pose proof (recv_commits_delivered_bytes [[x61; x62]; [x63]; [x64; x65]]
                recv_would_block [] sample_process idle_socket) as H.
  destruct H as [E _].
  - repeat constructor; discriminate.
  - vm_compute. discriminate.
  - reflexivity.
  - unfold recv_socket. rewrite E. reflexivity.
Defined.

(** The result of [recv()] when the loop ends on the non-positive read
    [t] after the positive reads [rs]. *)
Lemma recv_after_prefix (rs : list RecvReply) (t : RecvReply)
    (more : list RecvReply) (p : Process) (s : TEpollSocket) :
  Forall (fun r => 0 < rcv_len r) rs ->
  rcv_len t <= 0 ->
  recv_ret (rs ++ t :: more) p s = fst (recv_classify (rcv_errno t))
  /\ recv_trace (rs ++ t :: more) p s
     = map (SysRecv (sd s) (recvBufSize p)) (rs ++ [t])
       ++ snd (recv_classify (rcv_errno t)).
Proof.
  intros Hpos Ht. unfold recv_ret, recv_trace, recv.
  rewrite (recv_loop_prefix p (sd s) t more Ht rs _ Hpos).
  destruct (recv_classify (rcv_errno t)) as [ret diag]. split; reflexivity.
Qed.

(** A zero-length first read and a failed first read ([EIO], 5) give the
    same return value: "closed" is not a result of its own. *)
Lemma recv_closed_equals_error :
  recv_ret [mkRecvReply 0 0 []] sample_process idle_socket = -1
  /\ recv_ret [mkRecvReply (-1) 5 []] sample_process idle_socket = -1
  /\ ~ (recv_ret [mkRecvReply 0 0 []] sample_process idle_socket
        <> recv_ret [mkRecvReply (-1) 5 []] sample_process idle_socket).
Proof.
  split; [reflexivity|]. split; [reflexivity|].
  intros H. apply H. reflexivity.
Qed.

(** C3 (as the code has it): [recv()] has two return values.  After any
    run of positive reads, the non-positive read that ends the loop
    decides: [errno = EAGAIN] gives 0 and no diagnostic; [errno = 0] (a
    zero-length read) or [ECONNRESET] gives -1 with a debug message; any
    other [errno] gives -1 with an error message.  A zero-length first
    read therefore returns -1, the value also returned for an error. *)
Theorem recv_classification (rs : list RecvReply) (t : RecvReply)
    (more : list RecvReply) (p : Process) (s : TEpollSocket) :
  Forall (fun r => 0 < rcv_len r) rs ->
  rcv_len t <= 0 ->
  let ret := recv_ret (rs ++ t :: more) p s in
  let tr := recv_trace (rs ++ t :: more) p s in
  let reads := map (SysRecv (sd s) (recvBufSize p)) (rs ++ [t]) in
  (rcv_errno t = EAGAIN -> ret = 0 /\ tr = reads)
  /\ (rcv_errno t = 0 \/ rcv_errno t = ECONNRESET ->
      ret = -1 /\ tr = reads ++ [SystemDebug (rcv_errno t)])
  /\ (rcv_errno t <> EAGAIN -> rcv_errno t <> 0 -> rcv_errno t <> ECONNRESET ->
      ret = -1 /\ tr = reads ++ [SystemError (rcv_errno t) []])
  /\ (ret = 0 \/ ret = -1).
Proof.
  intros Hpos Ht. cbv zeta.
  destruct (recv_after_prefix rs t more p s Hpos Ht) as [-> ->].
  unfold recv_classify. repeat split.
  - rewrite H. reflexivity.
  - rewrite H. cbn. now rewrite app_nil_r.
  - destruct H as [-> | ->]; reflexivity.
  - destruct H as [-> | ->]; reflexivity.
  - apply Z.eqb_neq in H, H0, H1. rewrite H, H0, H1. reflexivity.
  - apply Z.eqb_neq in H, H0, H1. rewrite H, H0, H1. reflexivity.
  - destruct (rcv_errno t =? EAGAIN); [now left|].
    destruct ((rcv_errno t =? 0) || (rcv_errno t =? ECONNRESET)); now right.
Qed.

Lemma recv_classification_witness :
  recv_ret [mkRecvReply 0 0 []] sample_process idle_socket = -1
  /\ recv_trace [mkRecvReply 0 0 []] sample_process idle_socket
     = [SysRecv 7 2 (mkRecvReply 0 0 []); SystemDebug 0].
Proof.
  destruct (recv_classification [] (mkRecvReply 0 0 []) [] sample_process
              idle_socket) as (_ & H & _).
  - constructor.
  - cbn. lia.
  - apply H. left. reflexivity.
Defined.

(** * Teardown *)

Lemma filter_map_Delete (f : Event -> bool) (q : list TSendBuffer) :
  (forall b, f (Delete b) = false) -> filter f (map Delete q) = [].
Proof.
  intros Hf. apply filter_none. intros e He.
  apply in_map_iff in He. destruct He as (b & <- & _). apply Hf.
Qed.

(** The destructor writes no access log record: with two buffers still
    queued, none of their records appears in the trace. *)
Lemma destroy_writes_no_log :
  sendBuf sample_socket = [sample_buffer; newSendBuffer [x78]]
  /\ ~ In (LogWrite (accessLogger sample_buffer)) (snd (destroy sample_socket))
  /\ filter is_LogWrite (snd (destroy sample_socket)) = [].
Proof.
  split; [reflexivity|]. split; [|reflexivity].
  cbn. intros [H|[H|[H|[]]]]; discriminate H.
Qed.

(** C2 (as the code has it): the destructor closes the descriptor when it
    is open ([sd > 0]) and clears it to 0, then deletes every buffer
    still queued, in queue order, and empties the queue.  It makes no
    [::send] call and writes no access log record; which path led to the
    teardown plays no part, the destructor reads the object only. *)
Theorem destroy_closes_and_disposes (s : TEpollSocket) :
  snd (destroy s)
    = (if sd s >? 0 then [SysClose (sd s)] else []) ++ map Delete (sendBuf s)
  /\ sendBuf (fst (destroy s)) = []
  /\ sd (fst (destroy s)) = (if sd s >? 0 then 0 else sd s)
  /\ filter is_Delete (snd (destroy s)) = map Delete (sendBuf s)
  /\ filter is_SysSend (snd (destroy s)) = []
  /\ filter is_LogWrite (snd (destroy s)) = [].
Proof.
  unfold destroy, close.
  destruct (sd s >? 0); cbn [fst snd set_sendBuf set_sd sendBuf sd app];
    repeat split; try reflexivity;
    cbn [filter is_Delete is_SysSend is_LogWrite];
    try (apply filter_map_Delete; reflexivity).
  all: induction (sendBuf s) as [|b q IH]; cbn; [reflexivity | now rewrite IH].
Qed.

(** [close()] is idempotent: a second call does nothing. *)
Lemma close_idempotent (s : TEpollSocket) :
  close (fst (close s)) = (fst (close s), []).
Proof.
  unfold close. destruct (sd s >? 0) eqn:E; cbn [fst set_sd sd].
  - reflexivity.
  - now rewrite E.
Qed.

(** * Buffer size discovery *)

Lemma initBuffer_noop (snd_reply rcv_reply : SockOptReply) (fd : Z) (p : Process) :
  sendBufSize p <> 0 -> initBuffer snd_reply rcv_reply fd p = (p, []).
Proof.
  intros H. unfold initBuffer. apply Z.eqb_neq in H. now rewrite H.
Qed.

Lemma initBuffer_all_noop (calls : list InitCall) (p : Process) :
  sendBufSize p <> 0 -> initBuffer_all calls p = (p, []).
Proof.
  intros H. induction calls as [|c calls IH]; [reflexivity|].
  cbn [initBuffer_all]. rewrite (initBuffer_noop _ _ _ _ H), IH. reflexivity.
Qed.

(** [create()] discovers the sizes through [initBuffer], after the
    constructor has taken its counter value; on a process that has its
    sizes it makes no query. *)
Lemma create_discovers_once (now : Z) (snd_reply rcv_reply : SockOptReply)
    (fd : Z) (p : Process) :
  0 < fd ->
  sendBufSize p <> 0 ->
  create now snd_reply rcv_reply fd p
    = (Some (fst (construct now fd p)), snd (construct now fd p), []).
Proof.
  intros Hfd Hsz. unfold create.
  assert (E : (fd >? 0) = true) by (apply Z.gtb_lt; lia). rewrite E.
  destruct (construct now fd p) as [sock p1] eqn:Hc. cbn [fst snd].
  assert (Hp1 : sendBufSize p1 = sendBufSize p).
  { unfold construct, fetchAndAddOrdered in Hc. inversion Hc. reflexivity. }
  rewrite initBuffer_noop by (rewrite Hp1; exact Hsz). reflexivity.
Qed.

(** C8: in a process whose sizes are not yet discovered, the first call
    of [initBuffer] queries both socket options, and stores for each the
    value reported or 131072 when its query fails; provided the kernel
    does not report a send buffer size of 0, every later call, on
    whatever descriptor and however many there are, makes no query and
    leaves both sizes unchanged. *)
Theorem initBuffer_once (first : InitCall) (later : list InitCall) (p : Process) :
  sendBufSize p = 0 ->
  (0 <= so_res (ic_snd first) -> so_val (ic_snd first) <> 0) ->
  let '(p', tr) := initBuffer_all (first :: later) p in
  p' = fst (initBuffer (ic_snd first) (ic_rcv first) (ic_sd first) p)
  /\ sendBufSize p'
     = (if so_res (ic_snd first) <? 0 then 131072 else so_val (ic_snd first))
  /\ recvBufSize p'
     = (if so_res (ic_rcv first) <? 0 then 131072 else so_val (ic_rcv first))
  /\ tr = [SysGetSockOpt (ic_sd first) SO_SNDBUF (ic_snd first);
           SysGetSockOpt (ic_sd first) SO_RCVBUF (ic_rcv first)].
Proof.
  intros H0 Hval. cbn [initBuffer_all]. unfold initBuffer at 1. rewrite H0.
  cbn [Z.eqb].
  rewrite initBuffer_all_noop.
  - unfold initBuffer. rewrite H0. cbn. repeat split.
  - cbn [sendBufSize]. unfold sockopt_value.
    destruct (so_res (ic_snd first) <? 0) eqn:E.
    + discriminate.
    + apply Hval. now apply Z.ltb_ge.
Qed.

Lemma initBuffer_once_witness :
  initBuffer_all
    [mkInitCall (mkSockOptReply 0 87040) (mkSockOptReply (-1) 0) 5;
     mkInitCall (mkSockOptReply 0 4096) (mkSockOptReply 0 4096) 6;
     mkInitCall (mkSockOptReply (-1) 0) (mkSockOptReply 0 1) 7]
    process_start
  = (mkProcess 87040 131072 1,
     [SysGetSockOpt 5 SO_SNDBUF (mkSockOptReply 0 87040);
      SysGetSockOpt 5 SO_RCVBUF (mkSockOptReply (-1) 0)]).
Proof.
  pose proof (initBuffer_once
    (mkInitCall (mkSockOptReply 0 87040) (mkSockOptReply (-1) 0) 5)
    [mkInitCall (mkSockOptReply 0 4096) (mkSockOptReply 0 4096) 6;
     mkInitCall (mkSockOptReply (-1) 0) (mkSockOptReply 0 1) 7]
    process_start eq_refl) as H.
  destruct (initBuffer_all _ process_start) as [p' tr].
  destruct H as (Hp & _ & _ & Htr).
  - cbn. intros _. discriminate.
  - rewrite Hp, Htr. reflexivity.
Defined.

(** The guard is the test [sendBufSize == 0]: were a query to succeed
    with the value 0, the next call would query again. *)
Lemma initBuffer_requeries_after_zero :
  snd (initBuffer_all
         [mkInitCall (mkSockOptReply 0 0) (mkSockOptReply 0 4096) 5;
          mkInitCall (mkSockOptReply 0 87040) (mkSockOptReply 0 87040) 6]
         process_start)
  = [SysGetSockOpt 5 SO_SNDBUF (mkSockOptReply 0 0);
     SysGetSockOpt 5 SO_RCVBUF (mkSockOptReply 0 4096);
     SysGetSockOpt 6 SO_SNDBUF (mkSockOptReply 0 87040);
     SysGetSockOpt 6 SO_RCVBUF (mkSockOptReply 0 87040)].
Proof. reflexivity. Qed.

(** * The connection identifier *)

Lemma wrap_int32_congr (x i : Z) :
  (wrap_int32 x + i) mod 2 ^ 32 = (x + i) mod 2 ^ 32.
Proof.
  unfold wrap_int32. rewrite (Z.mod_eq (x + 2 ^ 31) (2 ^ 32)) by lia.
  replace (x + 2 ^ 31 - 2 ^ 32 * ((x + 2 ^ 31) / 2 ^ 32) - 2 ^ 31 + i)
    with (x + i + (- ((x + 2 ^ 31) / 2 ^ 32)) * 2 ^ 32) by ring.
  apply Z_mod_plus_full.
Qed.

Lemma low32_of_quint64 (c : Z) :
  Z.land (to_quint64 c) 4294967295 = c mod 2 ^ 32.
Proof.
  change 4294967295 with (Z.ones 32). rewrite Z.land_ones by lia.
  unfold to_quint64. apply Z.mod_mod_divide.
  exists (2 ^ 32). reflexivity.
Qed.

Lemma high32_of_uint (now : Z) :
  to_quint64 (Z.shiftl (to_quint64 (to_uint now)) 32)
  = Z.shiftl (to_uint now) 32.
Proof.
  unfold to_quint64, to_uint.
  assert (H : 0 <= now mod 2 ^ 32 < 2 ^ 32) by (apply Z.mod_pos_bound; lia).
  rewrite (Z.mod_small (now mod 2 ^ 32)) by lia.
  rewrite Z.shiftl_mul_pow2 by lia. apply Z.mod_small. lia.
Qed.

(** The identifier of a construction in terms of the counter it read. *)
Lemma construct_identifier (now fd : Z) (p : Process) :
  identifier (fst (construct now fd p))
  = Z.lor (Z.shiftl (to_uint now) 32) (objectCounter p mod 2 ^ 32)
  /\ objectCounter (snd (construct now fd p)) = wrap_int32 (objectCounter p + 1).
Proof.
  unfold construct, fetchAndAddOrdered, make_identifier.
  cbn [fst snd identifier objectCounter].
  now rewrite high32_of_uint, low32_of_quint64.
Qed.

Lemma construct_all_length (nows : list Z) :
  forall p, length (fst (construct_all nows p)) = length nows.
Proof.
  induction nows as [|now nows IH]; intros p; [reflexivity|].
  cbn [construct_all].
  destruct (construct now 0 p) as [sock p1].
  specialize (IH p1). destruct (construct_all nows p1) as [ids p2].
  cbn [fst length] in *. now rewrite IH.
Qed.

Lemma construct_all_nth (nows : list Z) :
  forall (p : Process) (i : nat),
    (i < length nows)%nat ->
    nth i (fst (construct_all nows p)) 0
    = Z.lor (Z.shiftl (to_uint (nth i nows 0)) 32)
            ((objectCounter p + Z.of_nat i) mod 2 ^ 32).
Proof.
  induction nows as [|now nows IH]; intros p i Hi; [cbn in Hi; lia|].
  cbn [construct_all].
  destruct (construct_identifier now 0 p) as [Hid Hcnt].
  destruct (construct now 0 p) as [sock p1]. cbn [fst snd] in Hid, Hcnt.
  specialize (IH p1). destruct (construct_all nows p1) as [ids p2].
  cbn [fst] in *. destruct i as [|i].
  - cbn [nth]. rewrite Hid, Z.add_0_r. reflexivity.
  - cbn [nth length] in *. rewrite IH by lia. rewrite Hcnt.
    rewrite wrap_int32_congr. do 2 f_equal. lia.
Qed.

Lemma wrap_int32_add (a b : Z) :
  wrap_int32 (wrap_int32 a + b) = wrap_int32 (a + b).
Proof.
  unfold wrap_int32 at 1 3. f_equal.
  rewrite <- !Z.add_assoc. apply wrap_int32_congr.
Qed.

(** The counter after a run of constructions. *)
Lemma construct_all_counter (nows : list Z) :
  forall p : Process,
    wrap_int32 (objectCounter p) = objectCounter p ->
    objectCounter (snd (construct_all nows p))
    = wrap_int32 (objectCounter p + Z.of_nat (length nows)).
Proof.
  induction nows as [|now nows IH]; intros p Hp.
  - cbn. now rewrite Z.add_0_r.
  - cbn [construct_all].
    destruct (construct_identifier now 0 p) as [_ Hcnt].
    destruct (construct now 0 p) as [sock p1]. cbn [snd] in Hcnt.
    specialize (IH p1). destruct (construct_all nows p1) as [ids p2].
    cbn [snd] in *. rewrite IH.
    + rewrite Hcnt, wrap_int32_add. f_equal. cbn [length]. lia.
    + rewrite Hcnt. rewrite <- (Z.add_0_r (wrap_int32 (objectCounter p + 1))) at 1.
      rewrite wrap_int32_add. now rewrite Z.add_0_r.
Qed.

(** The two halves of an identifier can be read back. *)
Lemma identifier_halves (h low : Z) :
  0 <= low < 2 ^ 32 ->
  Z.shiftr (Z.lor (Z.shiftl h 32) low) 32 = h
  /\ Z.land (Z.lor (Z.shiftl h 32) low) (Z.ones 32) = low.
Proof.
  intros Hlow. split.
  - rewrite Z.shiftr_lor, Z.shiftr_shiftl_l by lia.
    rewrite (Z.shiftr_div_pow2 low) by lia.
    rewrite Z.div_small by lia. cbn [Z.sub Z.add Z.opp Z.pos_sub].
    rewrite Z.shiftl_0_r. apply Z.lor_0_r.
  - rewrite Z.land_lor_distr_l, !Z.land_ones by lia.
    rewrite Z.shiftl_mul_pow2 by lia. rewrite Z.mod_mul by lia.
    rewrite Z.mod_small by lia. reflexivity.
Qed.

Lemma identifier_injective (h1 h2 c1 c2 : Z) :
  Z.lor (Z.shiftl h1 32) (c1 mod 2 ^ 32) = Z.lor (Z.shiftl h2 32) (c2 mod 2 ^ 32) ->
  h1 = h2 /\ c1 mod 2 ^ 32 = c2 mod 2 ^ 32.
Proof.
  intros H.
  assert (B1 : 0 <= c1 mod 2 ^ 32 < 2 ^ 32) by (apply Z.mod_pos_bound; lia).
  assert (B2 : 0 <= c2 mod 2 ^ 32 < 2 ^ 32) by (apply Z.mod_pos_bound; lia).
  destruct (identifier_halves h1 _ B1) as [Hh1 Hl1].
  destruct (identifier_halves h2 _ B2) as [Hh2 Hl2].
  split.
  - rewrite <- Hh1, <- Hh2, H. reflexivity.
  - rewrite <- Hl1, <- Hl2, H. reflexivity.
Qed.

Lemma mod_eq_close (a b : Z) :
  a mod 2 ^ 32 = b mod 2 ^ 32 -> Z.abs (a - b) < 2 ^ 32 -> a = b.
Proof.
  intros H Habs.
  rewrite (Z.mod_eq a (2 ^ 32)), (Z.mod_eq b (2 ^ 32)) in H by lia.
  lia.
Qed.

(** With the clock stuck on one second, construction number [2^32]
    (counting from 0) gets the identifier of the first one. *)
Lemma identifier_repeats_after_wrap :
  nth 0 (identifiers (same_second 0 (2 ^ 32 + 1))) 0
  = nth (Z.to_nat (2 ^ 32)) (identifiers (same_second 0 (2 ^ 32 + 1))) 0
  /\ (0 < Z.to_nat (2 ^ 32) < length (identifiers (same_second 0 (2 ^ 32 + 1))))%nat.
Proof.
  unfold identifiers, same_second.
  assert (L : length (repeat 0 (Z.to_nat (2 ^ 32 + 1))) = Z.to_nat (2 ^ 32 + 1))
    by apply repeat_length.
  split.
  - rewrite !construct_all_nth by (rewrite L; lia).
    rewrite !nth_repeat. rewrite Z2Nat.id by lia.
    change (objectCounter process_start) with 1.
    change (Z.of_nat 0) with 0.
    replace (1 + 2 ^ 32) with (1 + 0 + 1 * 2 ^ 32) by ring.
    now rewrite Z_mod_plus_full.
  - rewrite construct_all_length, L. lia.
Qed.

(** C7 (as the code has it): the identifier of construction number [i]
    (from 0) in a process is [(h << 32) | (c & 0xFFFFFFFF)] with [h] the
    clock reading ([uint]) and [c = 1 + i] the counter, which starts at 1
    and goes up by 1 per construction (stored on 32 bits, so after [n]
    constructions it holds [1 + n] wrapped to [int]); two identifiers of
    one process differ whenever their clock readings differ or the
    constructions are fewer than [2^32] apart. *)
Theorem identifier_formula_and_distinctness (nows : list Z) (i j : nat) :
  (i < length nows)%nat ->
  (j < length nows)%nat ->
  nth i (identifiers nows) 0
    = Z.lor (Z.shiftl (to_uint (nth i nows 0)) 32)
            (Z.land (1 + Z.of_nat i) 4294967295)
  /\ objectCounter (snd (construct_all nows process_start))
     = wrap_int32 (1 + Z.of_nat (length nows))
  /\ (i <> j ->
      to_uint (nth i nows 0) <> to_uint (nth j nows 0)
      \/ Z.abs (Z.of_nat i - Z.of_nat j) < 2 ^ 32 ->
      nth i (identifiers nows) 0 <> nth j (identifiers nows) 0).
Proof.
  intros Hi Hj. unfold identifiers.
  rewrite !construct_all_nth by assumption.
  change (objectCounter process_start) with 1.
  split; [|split].
  - change 4294967295 with (Z.ones 32). now rewrite Z.land_ones by lia.
  - now rewrite construct_all_counter.
  - intros Hij Hfar Heq. apply identifier_injective in Heq.
    destruct Heq as [Hh Hc]. destruct Hfar as [Hne | Hclose].
    + apply Hne. exact Hh.
    + apply mod_eq_close in Hc; lia.
Qed.

Lemma identifier_formula_and_distinctness_witness :
  nth 1 (identifiers sample_clock) 0 = Z.lor (Z.shiftl 1700000000 32) 2
  /\ nth 0 (identifiers sample_clock) 0 <> nth 1 (identifiers sample_clock) 0.
Proof.
  assert (L0 : (0 < length sample_clock)%nat) by (cbn; lia).
  assert (L1 : (1 < length sample_clock)%nat) by (cbn; lia).
  split.
  - exact (proj1 (identifier_formula_and_distinctness _ 1 1 L1 L1)).
  - apply (proj2 (proj2 (identifier_formula_and_distinctness _ 0 1 L0 L1))).
    + discriminate.
    + right. cbn. lia.
Defined.

(** * Order of the bytes on the wire *)

Lemma wire_app (tr1 tr2 : list Event) : wire (tr1 ++ tr2) = wire tr1 ++ wire tr2.
Proof. apply flat_map_app. Qed.

Lemma deleted_app (tr1 tr2 : list Event) :
  deleted (tr1 ++ tr2) = deleted tr1 ++ deleted tr2.
Proof. apply flat_map_app. Qed.

Lemma send_classify_data (buf : TSendBuffer) (err len : Z) :
  sb_data (fst (fst (send_classify buf err len))) = sb_data buf
  /\ wire (snd (send_classify buf err len)) = []
  /\ deleted (snd (send_classify buf err len)) = [].
Proof.
  unfold send_classify.
  destruct ((err =? 0) || (err =? EAGAIN)); [repeat split|].
  destruct (err =? ECONNRESET); repeat split.
Qed.

Lemma rearm_silent (s : TEpollSocket) (err : Z) (q : list TSendBuffer) :
  wire (rearm s err q) = [] /\ deleted (rearm s err q) = [].
Proof.
  unfold rearm. destruct (negb (err =? EAGAIN) && negb (isEmpty q)); split; reflexivity.
Qed.

(** The loop sends a prefix of the head's remaining bytes and leaves the
    rest in the buffer; it deletes nothing. *)
Lemma send_loop_sends_prefix (p : Process) (fd : Z) (os : list SendReply) :
  forall buf err buf1 err1 len tr os1,
    send_loop os p fd buf err = (buf1, err1, len, tr, os1) ->
    Forall send_reply_honest tr ->
    sb_data buf = wire tr ++ sb_data buf1 /\ deleted tr = [].
Proof.
  induction os as [|r os IH]; intros buf err buf1 err1 len tr os1 H Hwf;
    cbn [send_loop] in H; unfold getData in H.
  - destruct (_ =? 0); inversion H; subst; split; reflexivity.
  - destruct (_ =? 0).
    + inversion H; subst. split; reflexivity.
    + destruct (snd_len r >? 0) eqn:Hpos.
      * destruct (send_loop os p fd _ _) as [[[[b e0] l] tr0] rest] eqn:Hrec.
        inversion H; subst. inversion Hwf as [|? ? Hr Hwf0]; subst.
        destruct (IH _ _ _ _ _ _ _ Hrec Hwf0) as [Hdata Hdel].
        cbn [seekData setResponseBytes sb_data] in Hdata.
        split; [|exact Hdel].
        cbn [wire flat_map wire_of_event]. rewrite Hpos.
        fold (wire tr0). rewrite <- app_assoc, <- Hdata.
        cbn [send_reply_honest] in Hr.
        rewrite firstn_firstn.
        pose proof (firstn_le_length (Z.to_nat (sendBufSize p)) (sb_data buf)) as Hle.
        replace (Nat.min (Z.to_nat (snd_len r)) (Z.to_nat (sendBufSize p)))
          with (Z.to_nat (snd_len r)) by lia.
        symmetry. apply firstn_skipn.
      * inversion H; subst. cbn [wire flat_map wire_of_event]. rewrite Hpos.
        split; reflexivity.
Qed.

Lemma Forall_app_l {A : Type} (P : A -> Prop) (l1 l2 : list A) :
  Forall P (l1 ++ l2) -> Forall P l1.
Proof. intros H. now apply Forall_app in H. Qed.

(** One call of [send()] on the queue [h :: t]: a prefix [out] of the
    head's bytes goes out; the head either stays, shorter by [out], or
    is retired and deleted with the bytes it still had; [t] is kept as it
    is. *)
Lemma send_head_only (os : list SendReply) (p : Process) (s : TEpollSocket)
    (h : TSendBuffer) (t : list TSendBuffer) :
  sendBuf s = h :: t ->
  Forall send_reply_honest (send_trace os p s) ->
  exists out left_over,
    sb_data h = out ++ left_over
    /\ wire (send_trace os p s) = out
    /\ ((exists h', sb_data h' = left_over
                    /\ sendBuf (send_socket os p s) = h' :: t
                    /\ deleted (send_trace os p s) = [])
        \/ (exists h', sb_data h' = left_over
                       /\ sendBuf (send_socket os p s) = t
                       /\ deleted (send_trace os p s) = [h'])).
Proof.
  intros Hq Hwf. unfold send_trace, send_socket in *.
  destruct (send_loop os p (sd s) h 0) as [[[[buf1 err] len] tr_loop] os1] eqn:Hloop.
  rewrite (send_unfold _ _ _ _ _ _ _ _ _ _ Hq Hloop) in *. cbn [fst snd] in *.
  destruct (send_loop_sends_prefix _ _ _ _ _ _ _ _ _ _ Hloop (Forall_app_l _ _ _ Hwf))
    as [Hdata Hdel].
  destruct (send_classify_data buf1 err len) as (Hcd & Hcw & Hcdel).
  destruct (rearm_silent s err (fst (fst (send_classify buf1 err len)) :: t))
    as [Hrw Hrd].
  exists (wire tr_loop), (sb_data buf1). split; [exact Hdata|].
  rewrite !wire_app, !deleted_app, Hcw, Hrw, Hdel, Hcdel, Hrd. cbn [app].
  unfold retire.
  destruct (atEnd _ || _); cbn [fst snd set_sendBuf sendBuf].
  - split; [now rewrite app_nil_r|]. right.
    exists (fst (fst (send_classify buf1 err len))). now rewrite Hcd.
  - split; [now rewrite app_nil_r|]. left.
    exists (fst (fst (send_classify buf1 err len))). now rewrite Hcd.
Qed.

Lemma fifo_state_start (q : list TSendBuffer) :
  fifo_state (map sb_data q) q [] [].
Proof.
  exists [], []. repeat split. destruct q; reflexivity.
Qed.

Lemma pending_enqueue (hs : list byte) (q : list TSendBuffer) (b : TSendBuffer) :
  (q = [] -> hs = []) ->
  pending hs (q ++ [b]) = pending hs q ++ [sb_data b].
Proof.
  intros H. destruct q as [|h t]; cbn [pending app].
  - now rewrite (H eq_refl).
  - now rewrite map_app.
Qed.

Lemma fifo_state_enqueue all q sent dropped (b : TSendBuffer) :
  fifo_state all q sent dropped ->
  fifo_state (all ++ [sb_data b]) (q ++ [b]) sent dropped.
Proof.
  intros (retired & hs & Hall & Hsent & Hdrop & Hnil).
  exists retired, hs. repeat split; try assumption.
  - rewrite Hall, pending_enqueue by assumption. now rewrite app_assoc.
  - intros E. destruct q; discriminate E.
Qed.

Lemma fifo_state_send all (s : TEpollSocket) sent dropped
    (os : list SendReply) (p : Process) :
  fifo_state all (sendBuf s) sent dropped ->
  Forall send_reply_honest (send_trace os p s) ->
  fifo_state all (sendBuf (send_socket os p s))
    (sent ++ wire (send_trace os p s))
    (dropped ++ map sb_data (deleted (send_trace os p s))).
Proof.
  intros (retired & hs & Hall & Hsent & Hdrop & Hnil) Hwf.
  destruct (sendBuf s) as [|h t] eqn:Hq.
  - unfold send_trace, send_socket. rewrite (send_empty_queue os p s Hq).
    cbn [fst snd wire deleted flat_map map]. rewrite !app_nil_r, Hq.
    exists retired, hs. repeat split; assumption.
  - destruct (send_head_only os p s h t Hq Hwf)
      as (out & left_over & Hdata & Hwire & [(h' & Hh' & Hq' & Hdel)
                                            | (h' & Hh' & Hq' & Hdel)]);
      rewrite Hwire, Hq', Hdel.
    + exists retired, (hs ++ out). cbn [map]. rewrite app_nil_r.
      repeat split.
      * rewrite Hall. cbn [pending]. rewrite Hdata, Hh'.
        now rewrite <- app_assoc.
      * rewrite Hsent. now rewrite app_assoc.
      * exact Hdrop.
      * discriminate.
    + exists (retired ++ [(hs ++ out, left_over)]), []. repeat split.
      * rewrite Hall, map_app. cbn [map fst snd pending]. rewrite Hdata.
        rewrite <- !app_assoc. cbn [app]. do 2 f_equal.
        destruct t; reflexivity.
      * rewrite Hsent, map_app, concat_app. cbn [map fst concat].
        now rewrite !app_nil_r, app_assoc.
      * rewrite Hdrop, map_app. cbn [map snd]. now rewrite Hh'.
Qed.

Lemma fifo_state_run (p : Process) (ops : list Op) :
  forall (s : TEpollSocket) all sent dropped,
    fifo_state all (sendBuf s) sent dropped ->
    Forall send_reply_honest (snd (run p ops s)) ->
    fifo_state (all ++ enqueued ops) (sendBuf (fst (run p ops s)))
      (sent ++ wire (snd (run p ops s)))
      (dropped ++ map sb_data (deleted (snd (run p ops s)))).
Proof.
  induction ops as [|op ops IH]; intros s all sent dropped Hst Hwf.
  - cbn. now rewrite !app_nil_r.
  - cbn [run] in *. destruct op as [b|d|os]; cbn [step enqueued] in *.
    + specialize (IH (enqueueSendData b s) (all ++ [sb_data b]) sent dropped).
      destruct (run p ops (enqueueSendData b s)) as [s2 tr2]. cbn [fst snd app] in *.
      rewrite <- app_assoc in IH. apply IH; [|exact Hwf].
      now apply fifo_state_enqueue.
    + specialize (IH (enqueueSendBytes d s) (all ++ [d]) sent dropped).
      destruct (run p ops (enqueueSendBytes d s)) as [s2 tr2]. cbn [fst snd app] in *.
      rewrite <- app_assoc in IH. apply IH; [|exact Hwf].
      apply (fifo_state_enqueue all (sendBuf s) sent dropped (newSendBuffer d) Hst).
    + pose proof (fifo_state_send all s sent dropped os p Hst) as Hsend.
      unfold send_trace, send_socket in Hsend.
      destruct (send os p s) as [[[ret s1] tr1] os1]. cbn [fst snd] in Hsend.
      specialize (IH s1 all (sent ++ wire tr1) (dropped ++ map sb_data (deleted tr1))).
      destruct (run p ops s1) as [s2 tr2]. cbn [fst snd] in *.
      apply Forall_app in Hwf. destruct Hwf as [Hwf1 Hwf2].
      rewrite wire_app, deleted_app, map_app, !app_assoc.
      apply IH; [|exact Hwf2]. now apply Hsend.
Qed.

Lemma concat_pending (hs : list byte) (q : list TSendBuffer) :
  (q = [] -> hs = []) ->
  concat (pending hs q) = hs ++ concat (map sb_data q).
Proof.
  intros H. destruct q as [|h t]; cbn.
  - now rewrite (H eq_refl).
  - now rewrite <- app_assoc.
Qed.

Lemma concat_whole_parts (retired : list (list byte * list byte)) :
  Forall (fun d => d = []) (map snd retired) ->
  concat (map (fun x => fst x ++ snd x) retired) = concat (map fst retired).
Proof.
  induction retired as [|[a b] r IH]; intros H; [reflexivity|].
  cbn [map snd] in H. inversion H as [|? ? Hb Hr]. subst.
  cbn [map fst snd concat]. now rewrite app_nil_r, IH.
Qed.

(** * Further properties of the send path *)

(** Every [::send] of the loop gets the descriptor [fd] and a non-empty
    window of at most [sendBufSize] bytes. *)
Lemma send_loop_windows (p : Process) (fd : Z) (os : list SendReply) :
  forall buf err buf1 err1 len tr os1,
    send_loop os p fd buf err = (buf1, err1, len, tr, os1) ->
    forall e, In e tr ->
      exists window r,
        e = SysSend fd window r
        /\ 0 < Z.of_nat (length window) <= sendBufSize p.
Proof.
  assert (Hwin : forall buf,
            (Z.of_nat (length (firstn (Z.to_nat (sendBufSize p)) (sb_data buf))) =? 0)
              = false ->
            0 < Z.of_nat (length (firstn (Z.to_nat (sendBufSize p)) (sb_data buf)))
              <= sendBufSize p).
  { intros buf H. apply Z.eqb_neq in H.
    pose proof (firstn_le_length (Z.to_nat (sendBufSize p)) (sb_data buf)). lia. }
  induction os as [|r os IH]; intros buf err buf1 err1 len tr os1 H e He;
    cbn [send_loop] in H; unfold getData in H.
  - destruct (_ =? 0) eqn:Hz; inversion H; subst; [destruct He|].
    destruct He as [<-|[]]. eauto.
  - destruct (_ =? 0) eqn:Hz.
    + inversion H; subst. destruct He.
    + destruct (snd_len r >? 0).
      * destruct (send_loop os p fd _ _) as [[[[b e0] l] tr0] rest] eqn:Hrec.
        inversion H; subst. destruct He as [<-|He]; [eauto|].
        eapply IH; eauto.
      * inversion H; subst. destruct He as [<-|[]]. eauto.
Qed.

Lemma send_trace_cases (os : list SendReply) (p : Process) (s : TEpollSocket)
    buf rest :
  sendBuf s = buf :: rest ->
  forall e, In e (send_trace os p s) ->
    (exists window r, e = SysSend (sd s) window r
                      /\ 0 < Z.of_nat (length window) <= sendBufSize p)
    \/ (exists err, e = SystemDebug err)
    \/ (exists err args, e = SystemError err args)
    \/ e = ModifyPoll (identifier s) REARM_EVENTS
    \/ (exists l, e = LogWrite l)
    \/ (exists b, e = Delete b).
Proof.
  intros Hq e He. unfold send_trace in He.
  destruct (send_loop os p (sd s) buf 0) as [[[[buf1 err] len] tr_loop] os1] eqn:Hloop.
  rewrite (send_unfold _ _ _ _ _ _ _ _ _ _ Hq Hloop) in He. cbn [fst snd] in He.
  apply in_app_or in He. destruct He as [He|He].
  { left. exact (send_loop_windows _ _ _ _ _ _ _ _ _ _ Hloop e He). }
  apply in_app_or in He. destruct He as [He|He].
  { unfold send_classify in He.
    destruct ((err =? 0) || (err =? EAGAIN)); [destruct He|].
    destruct (err =? ECONNRESET); destruct He as [<-|[]]; eauto 8. }
  apply in_app_or in He. destruct He as [He|He].
  { unfold rearm in He. destruct (negb _ && negb _); [|destruct He].
    destruct He as [<-|[]]. auto 8. }
  unfold retire in He. destruct (atEnd _ || _); [|destruct He].
  destruct He as [<-|[<-|[]]]; eauto 10.
Qed.

Lemma wire_length_bound (p : Process) (s : TEpollSocket) (tr : list Event) :
  Forall (send_call_bounded p s) tr ->
  Z.of_nat (length (wire tr))
  <= Z.of_nat (length (filter is_SysSend tr)) * sendBufSize p.
Proof.
  induction 1 as [|e tr He _ IH]; [cbn; lia|].
  cbn [wire flat_map]. fold (wire tr). rewrite length_app.
  destruct e; cbn [wire_of_event filter is_SysSend length app] in *; try lia.
  destruct He as [_ Hw].
  destruct (snd_len reply >? 0); cbn [length].
  - pose proof (firstn_le_length (Z.to_nat (snd_len reply)) window) as H1.
    assert (H2 : (length (firstn (Z.to_nat (snd_len reply)) window)
                  <= length window)%nat).
    { rewrite length_firstn. lia. }
    lia.
  - lia.
Qed.

(** [send()] only ever calls [::send] on the connection's own descriptor,
    with a non-empty window of at most [sendBufSize] bytes; so the bytes
    put on the wire by one call are at most [sendBufSize] times the
    number of [::send] calls it made. *)
Theorem send_calls_are_bounded (os : list SendReply) (p : Process)
    (s : TEpollSocket) :
  Forall (send_call_bounded p s) (send_trace os p s)
  /\ Z.of_nat (length (wire (send_trace os p s)))
     <= Z.of_nat (length (filter is_SysSend (send_trace os p s))) * sendBufSize p.
Proof.
  assert (H : Forall (send_call_bounded p s) (send_trace os p s)).
  { destruct (sendBuf s) as [|buf rest] eqn:Hq.
    - unfold send_trace. rewrite (send_empty_queue os p s Hq). constructor.
    - apply Forall_forall. intros e He.
      destruct (send_trace_cases os p s buf rest Hq e He)
        as [(w & r & -> & Hw) | [(x & ->) | [(x & y & ->) | [-> | [(l & ->) | (b & ->)]]]]];
        cbn; auto. }
  split; [exact H|]. exact (wire_length_bound p s _ H).
Qed.

Lemma send_classify_ret (buf : TSendBuffer) (err len : Z) :
  snd (fst (send_classify buf err len)) = 0
  \/ snd (fst (send_classify buf err len)) = -1.
Proof.
  unfold send_classify. destruct ((err =? 0) || (err =? EAGAIN)); [now left|].
  destruct (err =? ECONNRESET); now right.
Qed.

Lemma retire_queue (buf : TSendBuffer) (ret : Z) (rest : list TSendBuffer) :
  (fst (retire buf ret rest) = rest
   \/ fst (retire buf ret rest) = buf :: rest /\ atEnd buf = false /\ 0 <= ret)
  /\ (ret = -1 -> fst (retire buf ret rest) = rest).
Proof.
  unfold retire. split.
  - destruct (atEnd buf); cbn [orb fst]; [now left|].
    destruct (ret <? 0) eqn:E; cbn [fst]; [now left|].
    right. repeat split. now apply Z.ltb_ge.
  - intros ->. now rewrite orb_true_r.
Qed.

Lemma send_classify_cases (buf : TSendBuffer) (err len : Z) :
  (fst (fst (send_classify buf err len)) = buf
   /\ snd (fst (send_classify buf err len)) = 0)
  \/ (responseBytes (accessLogger (fst (fst (send_classify buf err len)))) = -1
      /\ snd (fst (send_classify buf err len)) = -1).
Proof.
  unfold send_classify. destruct ((err =? 0) || (err =? EAGAIN)); [now left|].
  destruct (err =? ECONNRESET); now right.
Qed.

(** [send()] returns 0 or -1 and leaves the descriptor, the identifier
    and the receive buffer as they are.  Of the queue [h :: t] it
    touches the head only: afterwards the queue is [t] (the head was
    retired), or it is the head as the loop left it followed by [t],
    and then the call returned 0; when the call returns -1 the queue is
    [t].  An empty queue stays empty.  It makes no [::recv], [close] or
    [getsockopt] call. *)
Theorem send_frame (os : list SendReply) (p : Process) (s : TEpollSocket) :
  (send_ret os p s = 0 \/ send_ret os p s = -1)
  /\ sd (send_socket os p s) = sd s
  /\ identifier (send_socket os p s) = identifier s
  /\ recvBuffer (send_socket os p s) = recvBuffer s
  /\ (sendBuf s = [] -> sendBuf (send_socket os p s) = [])
  /\ (forall (h : TSendBuffer) (t : list TSendBuffer),
        sendBuf s = h :: t ->
        (sendBuf (send_socket os p s) = t
         \/ sendBuf (send_socket os p s) = send_loop_buf os p (sd s) h :: t
            /\ send_ret os p s = 0)
        /\ (send_ret os p s = -1 -> sendBuf (send_socket os p s) = t))
  /\ (forall e, In e (send_trace os p s) ->
        is_SysRecv e = false /\ is_SysClose e = false
        /\ is_SysGetSockOpt e = false).
Proof.
  destruct (sendBuf s) as [|buf rest] eqn:Hq.
  - unfold send_ret, send_socket, send_trace.
    rewrite (send_empty_queue os p s Hq). cbn [fst snd]. rewrite Hq.
    split; [now left|]. do 3 (split; [reflexivity|]).
    split; [reflexivity|]. split; [discriminate|].
    intros e [].
  - assert (Hev : forall e, In e (send_trace os p s) ->
              is_SysRecv e = false /\ is_SysClose e = false
              /\ is_SysGetSockOpt e = false).
    { intros e He.
      destruct (send_trace_cases os p s buf rest Hq e He)
        as [(w & r & -> & Hw) | [(x & ->) | [(x & y & ->) | [-> | [(l & ->) | (b & ->)]]]]];
        repeat split. }
    destruct (send_trace_shape os p s buf rest Hq)
      as (_ & _ & _ & _ & _ & _ & Hqueue & Hr).
    assert (Hframe : sd (send_socket os p s) = sd s
                     /\ identifier (send_socket os p s) = identifier s
                     /\ recvBuffer (send_socket os p s) = recvBuffer s).
    { unfold send_socket, send. rewrite Hq.
      destruct (send_loop os p (sd s) buf 0) as [[[[b1 e1] l1] t1] o1].
      destruct (send_classify b1 e1 l1) as [[b2 r2] d2].
      destruct (retire b2 r2 rest) as [q2 t2]. repeat split. }
    destruct Hframe as (Hsd & Hid & Hrb).
    split; [rewrite Hr; apply send_classify_ret|].
    do 3 (split; [assumption|]).
    split; [discriminate|]. split; [|exact Hev].
    intros h t E. inversion E; subst h t. clear E.
    destruct (retire_queue
                (fst (fst (send_classify (send_loop_buf os p (sd s) buf)
                             (send_loop_err os p (sd s) buf) 0)))
                (send_ret os p s) rest) as [Hcase Herr].
    rewrite <- Hqueue in Hcase, Herr. split; [|exact Herr].
    destruct Hcase as [E | (E & _ & Hnn)]; [now left|]. right.
    destruct (send_classify_cases (send_loop_buf os p (sd s) buf)
                (send_loop_err os p (sd s) buf) 0) as [[Hb Hz] | [_ Hz]];
      rewrite <- Hr in Hz.
    + rewrite Hb in E. split; assumption.
    + rewrite Hz in Hnn. lia.
Qed.

(** While the buffer sizes are not discovered ([sendBufSize] is 0),
    [send()] on a head that has bytes makes no [::send] call and sends
    nothing: it returns 0, asks the reactor to re-arm, and leaves the
    connection and the replies exactly as they were. *)
Theorem send_stalls_without_sizes (os : list SendReply) (p : Process)
    (s : TEpollSocket) (h : TSendBuffer) (t : list TSendBuffer) :
  sendBufSize p = 0 ->
  sendBuf s = h :: t ->
  sb_data h <> [] ->
  send os p s = (0, s, [ModifyPoll (identifier s) REARM_EVENTS], os).
Proof.
  intros Hsz Hq Hdata.
  assert (Hloop : send_loop os p (sd s) h 0 = (h, 0, 0, [], os)).
  { destruct os; cbn [send_loop]; unfold getData; rewrite Hsz; reflexivity. }
  rewrite (send_unfold _ _ _ _ _ _ _ _ _ _ Hq Hloop).
  unfold send_classify, rearm, retire, atEnd. cbn [Z.eqb orb fst snd].
  destruct (sb_data h) as [|x d]; [contradiction|].
  cbn. destruct s as [fd id q rb]. cbn in Hq. subst q. reflexivity.
Qed.

Lemma send_stalls_without_sizes_witness :
  send [mkSendReply 2 0] process_start sample_socket
  = (0, sample_socket, [ModifyPoll 99 REARM_EVENTS], [mkSendReply 2 0]).
Proof.
  apply (send_stalls_without_sizes [mkSendReply 2 0] process_start
           sample_socket sample_buffer [newSendBuffer [x78]]).
  - reflexivity.
  - reflexivity.
  - discriminate.
Defined.

(** * Access log accounting and ownership of the buffers *)

Lemma logs_written_app (tr1 tr2 : list Event) :
  logs_written (tr1 ++ tr2) = logs_written tr1 ++ logs_written tr2.
Proof. apply flat_map_app. Qed.

Lemma flat_map_none {A B : Type} (f : A -> list B) (l : list A) :
  (forall x, In x l -> f x = []) -> flat_map f l = [].
Proof.
  induction l as [|a l IH]; intros H; [reflexivity|].
  cbn. rewrite (H a (or_introl eq_refl)). apply IH. intros x Hx. apply H. now right.
Qed.

(** The loop writes no log record and deletes nothing. *)
Lemma send_loop_quiet (os : list SendReply) (p : Process) (fd : Z)
    buf err buf1 err1 len tr os1 :
  send_loop os p fd buf err = (buf1, err1, len, tr, os1) ->
  logs_written tr = [] /\ deleted tr = [].
Proof.
  intros H. split; apply flat_map_none; intros e He;
    apply (send_loop_only_SysSend _ _ _ _ _ _ _ _ _ _ H) in He;
    destruct e; try discriminate He; reflexivity.
Qed.

(** What one call writes and deletes is decided by the retirement. *)
Lemma send_retirement (os : list SendReply) (p : Process) (s : TEpollSocket)
    (h : TSendBuffer) (t : list TSendBuffer) :
  sendBuf s = h :: t ->
  let h' := fst (fst (send_classify (send_loop_buf os p (sd s) h)
                        (send_loop_err os p (sd s) h) 0)) in
  (sendBuf (send_socket os p s) = h' :: t
   /\ logs_written (send_trace os p s) = []
   /\ deleted (send_trace os p s) = []
   /\ atEnd h' = false /\ send_ret os p s = 0)
  \/ (sendBuf (send_socket os p s) = t
      /\ logs_written (send_trace os p s) = [accessLogger h']
      /\ deleted (send_trace os p s) = [h']
      /\ (atEnd h' = true \/ send_ret os p s = -1)).
Proof.
  intros Hq h'.
  destruct (send_trace_shape os p s h t Hq)
    as (tr_loop & diag & tr_retire & Htr & Hpre & Hret & Hqueue & Hr).
  fold h' in Hret, Hqueue.
  assert (Hquiet : logs_written (tr_loop ++ diag) = []
                   /\ deleted (tr_loop ++ diag) = []).
  { split; apply flat_map_none; intros e He; apply Hpre in He;
      destruct e; try reflexivity; destruct He; discriminate. }
  destruct Hquiet as [Hl Hd].
  assert (Hm : forall tr0,
            logs_written ((if send_loop_err os p (sd s) h =? EAGAIN then []
                           else [ModifyPoll (identifier s) REARM_EVENTS]) ++ tr0)
              = logs_written tr0
            /\ deleted ((if send_loop_err os p (sd s) h =? EAGAIN then []
                         else [ModifyPoll (identifier s) REARM_EVENTS]) ++ tr0)
              = deleted tr0).
  { intros tr0. destruct (_ =? EAGAIN); split; reflexivity. }
  rewrite app_assoc in Htr.
  rewrite Htr, Hqueue, (logs_written_app (tr_loop ++ diag)),
    (deleted_app (tr_loop ++ diag)), Hl, Hd.
  cbn [app].
  rewrite (proj1 (Hm tr_retire)), (proj2 (Hm tr_retire)), Hret.
  assert (Hzero : send_ret os p s = 0 \/ send_ret os p s = -1)
    by (rewrite Hr; apply send_classify_ret).
  unfold retire.
  destruct (atEnd h') eqn:Hat; cbn [orb fst snd].
  - right. repeat split. now left.
  - destruct (send_ret os p s <? 0) eqn:Hneg; cbn [fst snd].
    + right. repeat split. right.
      destruct Hzero as [E|E]; [|exact E].
      rewrite E in Hneg. discriminate Hneg.
    + left. repeat split.
      destruct Hzero as [E|E]; [exact E|].
      rewrite E in Hneg. discriminate Hneg.
Qed.











(** The exact loop is the case where [narrow] changes nothing. *)
Lemma send_loop_narrow_exact (p : Process) (fd : Z) (os : list SendReply) :
  forall buf err,
    send_loop_narrow (fun z => z) os p fd buf err = send_loop os p fd buf err.
Proof.
  induction os as [|r os IH]; intros buf err; [reflexivity|].
  cbn [send_loop send_loop_narrow]. now rewrite IH.
Qed.

Lemma run_narrow_exact (p : Process) (ops : list Op) :
  forall s : TEpollSocket, run_narrow (fun z => z) p ops s = run p ops s.
Proof.
  induction ops as [|op ops IH]; intros s; [reflexivity|].
  cbn [run run_narrow]. destruct op as [b|d|os]; cbn [step step_narrow];
    rewrite ?IH; try reflexivity.
  assert (Hs : send_narrow (fun z => z) os p s = send os p s).
  { unfold send_narrow, send. destruct (sendBuf s); [reflexivity|].
    now rewrite send_loop_narrow_exact. }
  rewrite Hs. destruct (send os p s) as [[[ret s1] tr1] os1]. now rewrite IH.
Qed.



Lemma run_retirements (p : Process) (ops : list Op) :
  forall s : TEpollSocket,
    logs_written (snd (run p ops s))
      = map accessLogger (deleted (snd (run p ops s)))
    /\ (length (deleted (snd (run p ops s)))
        + length (sendBuf (fst (run p ops s)))
        = length (sendBuf s) + length (enqueued ops))%nat.
Proof.
  induction ops as [|op ops IH]; intros s; [cbn; split; [reflexivity|lia]|].
  cbn [run]. destruct op as [b|d|os]; cbn [step enqueued].
  - specialize (IH (enqueueSendData b s)).
    destruct (run p ops (enqueueSendData b s)) as [s2 tr2]. cbn [fst snd app] in *.
    destruct IH as [IH1 IH2]. split; [exact IH1|].
    cbn [enqueueSendData set_sendBuf sendBuf] in IH2.
    rewrite length_app in IH2. cbn [length] in *. lia.
  - specialize (IH (enqueueSendBytes d s)).
    destruct (run p ops (enqueueSendBytes d s)) as [s2 tr2]. cbn [fst snd app] in *.
    destruct IH as [IH1 IH2]. split; [exact IH1|].
    cbn [enqueueSendBytes set_sendBuf sendBuf] in IH2.
    rewrite length_app in IH2. cbn [length] in *. lia.
  - pose proof (send_retirement os p s) as Hcall.
    pose proof (send_empty_queue os p s) as Hnone.
    unfold send_trace, send_socket, send_ret in Hcall.
    destruct (send os p s) as [[[ret s1] tr1] os1]. cbn [fst snd] in Hcall.
    specialize (IH s1). destruct (run p ops s1) as [s2 tr2]. cbn [fst snd] in *.
    destruct IH as [IH1 IH2].
    rewrite logs_written_app, deleted_app, map_app, length_app, IH1.
    destruct (sendBuf s) as [|h t] eqn:Hq.
    + specialize (Hnone eq_refl). inversion Hnone; subst.
      rewrite Hq in IH2. cbn in *. split; [reflexivity|lia].
    + destruct (Hcall h t eq_refl)
        as [(Hq' & Hl & Hd & _) | (Hq' & Hl & Hd & _)];
        rewrite Hl, Hd; rewrite Hq' in IH2; cbn [map length app] in *;
        split; try reflexivity; lia.
Qed.

(** In any sequence of enqueues and [send()] calls, the access log
    records written are exactly the records of the buffers deleted, in
    the same order and in the state they are deleted in: a buffer that
    [send()] retires is logged once, a buffer still queued is not. *)
Theorem log_written_once_per_retired_buffer (p : Process) (ops : list Op)
    (s : TEpollSocket) :
  logs_written (snd (run p ops s))
  = map accessLogger (deleted (snd (run p ops s))).
Proof.
  exact (proj1 (run_retirements p ops s)).
Qed.

Lemma deleted_map_Delete (q : list TSendBuffer) : deleted (map Delete q) = q.
Proof.
  induction q as [|b q IH]; [reflexivity|].
  cbn [map deleted flat_map app]. fold (deleted (map Delete q)). now rewrite IH.
Qed.

Lemma destroy_deletes_queue (s : TEpollSocket) :
  deleted (snd (destroy s)) = sendBuf s /\ sendBuf (fst (destroy s)) = [].
Proof.
  unfold destroy, close.
  destruct (sd s >? 0); cbn [fst snd set_sendBuf set_sd sendBuf];
    rewrite deleted_app, deleted_map_Delete; split; reflexivity.
Qed.

Lemma advanced_refl (b : TSendBuffer) : advanced b b.
Proof. exists 0%nat. reflexivity. Qed.

Lemma advanced_trans (a b c : TSendBuffer) :
  advanced a b -> advanced b c -> advanced a c.
Proof.
  intros [n Hn] [m Hm]. exists (m + n)%nat. now rewrite Hm, Hn, skipn_skipn.
Qed.

(** The loop only consumes leading bytes of the head. *)
Lemma send_loop_advanced (p : Process) (fd : Z) (os : list SendReply) :
  forall buf err buf1 err1 len tr os1,
    send_loop os p fd buf err = (buf1, err1, len, tr, os1) ->
    advanced buf buf1.
Proof.
  induction os as [|r os IH]; intros buf err buf1 err1 len tr os1 H;
    cbn [send_loop] in H; unfold getData in H.
  - destruct (_ =? 0); inversion H; subst; apply advanced_refl.
  - destruct (_ =? 0).
    + inversion H; subst. apply advanced_refl.
    + destruct (snd_len r >? 0).
      * destruct (send_loop os p fd _ _) as [[[[b e0] l] tr0] rest] eqn:Hrec.
        inversion H; subst. apply IH in Hrec.
        eapply advanced_trans; [|exact Hrec].
        exists (Z.to_nat (snd_len r)). reflexivity.
      * inversion H; subst. apply advanced_refl.
Qed.

(** One call on the queue [h :: t]: what it deletes, followed by the
    queue it leaves, is the head further on followed by [t]. *)
Lemma send_owns (os : list SendReply) (p : Process) (s : TEpollSocket)
    (h : TSendBuffer) (t : list TSendBuffer) :
  sendBuf s = h :: t ->
  exists h', advanced h h'
             /\ deleted (send_trace os p s) ++ sendBuf (send_socket os p s)
                = h' :: t.
Proof.
  intros Hq.
  assert (Hadv : advanced h (send_loop_buf os p (sd s) h)).
  { unfold send_loop_buf.
    destruct (send_loop os p (sd s) h 0) as [[[[buf1 err] len] tr_loop] os1] eqn:Hloop.
    exact (send_loop_advanced _ _ _ _ _ _ _ _ _ _ Hloop). }
  exists (fst (fst (send_classify (send_loop_buf os p (sd s) h)
                      (send_loop_err os p (sd s) h) 0))).
  split.
  - destruct Hadv as [n Hn]. exists n.
    now rewrite (proj1 (send_classify_data _ _ _)).
  - destruct (send_retirement os p s h t Hq)
      as [(Hq' & _ & Hd & _) | (Hq' & _ & Hd & _)]; rewrite Hq', Hd; reflexivity.
Qed.

Lemma Forall2_advanced_step (owned done : list TSendBuffer)
    (h h' : TSendBuffer) (t : list TSendBuffer) :
  Forall2 advanced owned (done ++ h :: t) ->
  advanced h h' ->
  Forall2 advanced owned (done ++ h' :: t).
Proof.
  intros H Hh. apply Forall2_app_inv_r in H.
  destruct H as (o1 & o2 & H1 & H2 & ->).
  apply Forall2_app; [exact H1|].
  inversion H2 as [|x ? o2' ? Hx Ht]; subst.
  constructor; [|exact Ht]. eapply advanced_trans; eassumption.
Qed.

Lemma run_owns (p : Process) (ops : list Op) :
  forall (s : TEpollSocket) (owned done : list TSendBuffer),
    Forall2 advanced owned (done ++ sendBuf s) ->
    Forall2 advanced (owned ++ enqueued_buffers ops)
      ((done ++ deleted (snd (run p ops s))) ++ sendBuf (fst (run p ops s))).
Proof.
  induction ops as [|op ops IH]; intros s owned done H.
  - cbn. now rewrite !app_nil_r.
  - cbn [run]. destruct op as [b|d|os]; cbn [step enqueued_buffers].
    + specialize (IH (enqueueSendData b s) (owned ++ [b]) done).
      destruct (run p ops (enqueueSendData b s)) as [s2 tr2]. cbn [fst snd app] in *.
      rewrite <- app_assoc in IH. apply IH.
      cbn [enqueueSendData set_sendBuf sendBuf]. rewrite app_assoc.
      apply Forall2_app; [exact H|]. constructor; [apply advanced_refl|constructor].
    + specialize (IH (enqueueSendBytes d s) (owned ++ [newSendBuffer d]) done).
      destruct (run p ops (enqueueSendBytes d s)) as [s2 tr2]. cbn [fst snd app] in *.
      rewrite <- app_assoc in IH. apply IH.
      cbn [enqueueSendBytes set_sendBuf sendBuf]. rewrite app_assoc.
      apply Forall2_app; [exact H|]. constructor; [apply advanced_refl|constructor].
    + pose proof (send_owns os p s) as Hcall.
      pose proof (send_empty_queue os p s) as Hnone.
      unfold send_trace, send_socket in Hcall.
      destruct (send os p s) as [[[ret s1] tr1] os1]. cbn [fst snd] in Hcall.
      specialize (IH s1 owned (done ++ deleted tr1)).
      destruct (run p ops s1) as [s2 tr2]. cbn [fst snd] in *.
      rewrite deleted_app, app_assoc. apply IH.
      destruct (sendBuf s) as [|h t] eqn:Hq.
      * specialize (Hnone eq_refl). inversion Hnone; subst.
        cbn. now rewrite Hq, !app_nil_r in *.
      * destruct (Hcall h t eq_refl) as (h' & Hadv & E).
        rewrite <- app_assoc, E.
        eapply Forall2_advanced_step; eassumption.
Qed.

(** Every buffer the connection owns is deleted exactly once, in enqueue
    order, by the time the connection is destroyed: the deletions made
    by the [send()] calls followed by those of the destructor match,
    position by position, the buffers initially queued followed by those
    enqueued, each deleted buffer being the owned buffer of that
    position with some of its leading bytes consumed.  The destructor
    deletes what is left in the queue and leaves it empty. *)
Theorem every_buffer_deleted_once (p : Process) (ops : list Op)
    (s : TEpollSocket) :
  Forall2 advanced (sendBuf s ++ enqueued_buffers ops)
    (deleted (snd (run p ops s) ++ snd (destroy (fst (run p ops s)))))
  /\ sendBuf (fst (destroy (fst (run p ops s)))) = []
  /\ deleted (snd (destroy (fst (run p ops s)))) = sendBuf (fst (run p ops s)).
Proof.
  destruct (destroy_deletes_queue (fst (run p ops s))) as [Hdel Hq].
  split; [|split; assumption].
  rewrite deleted_app, Hdel.
  apply (run_owns p ops s (sendBuf s) []).
  cbn [app]. induction (sendBuf s) as [|b q IH]; constructor;
    [apply advanced_refl | exact IH].
Qed.

(** * Further properties of the receive path *)

Lemma received_app (tr1 tr2 : list Event) :
  received (tr1 ++ tr2) = received tr1 ++ received tr2.
Proof. apply flat_map_app. Qed.

(** The loop appends what its reads delivered, and does nothing but
    read [recvBufSize] bytes at a time on [fd]. *)
Lemma recv_loop_received (p : Process) (fd : Z) (os : list RecvReply) :
  forall rb rb' err tr rest,
    recv_loop os p fd rb = (rb', err, tr, rest) ->
    rb' = rb ++ received tr
    /\ forall e, In e tr -> exists r, e = SysRecv fd (recvBufSize p) r.
Proof.
  induction os as [|r os IH]; intros rb rb' err tr rest H; cbn [recv_loop] in H.
  - inversion H; subst. split; [cbn; now rewrite app_nil_r|].
    intros e [<-|[]]. eauto.
  - destruct (rcv_len r <=? 0) eqn:Hlen.
    + inversion H; subst. split.
      * cbn [received flat_map received_of_event]. rewrite Hlen. cbn.
        now rewrite app_nil_r.
      * intros e [<-|[]]. eauto.
    + destruct (recv_loop os p fd _) as [[[rb0 err0] tr0] rest0] eqn:Hrec.
      inversion H; subst. destruct (IH _ _ _ _ _ Hrec) as [Hrb Hev]. split.
      * rewrite Hrb. unfold seekRecvBuffer.
        cbn [received flat_map received_of_event]. rewrite Hlen.
        fold (received tr0). now rewrite app_assoc.
      * intros e [<-|He]; eauto.
Qed.

(** [recv()] keeps every byte it has read, also when it ends on a
    disconnect or an error and returns -1: the receive buffer afterwards
    is the old content followed by the bytes of the positive reads, in
    order.  It leaves the descriptor, the identifier and the outbound
    queue as they are, and its only effects are [::recv] calls of
    [recvBufSize] bytes on the connection's descriptor and one
    diagnostic; it never closes the descriptor itself. *)
Theorem recv_keeps_received_bytes (os : list RecvReply) (p : Process)
    (s : TEpollSocket) :
  recvBuffer (recv_socket os p s) = recvBuffer s ++ received (recv_trace os p s)
  /\ sd (recv_socket os p s) = sd s
  /\ identifier (recv_socket os p s) = identifier s
  /\ sendBuf (recv_socket os p s) = sendBuf s
  /\ (forall e, In e (recv_trace os p s) ->
        (exists r, e = SysRecv (sd s) (recvBufSize p) r)
        \/ (exists err, e = SystemDebug err)
        \/ (exists err, e = SystemError err [])).
Proof.
  unfold recv_socket, recv_trace, recv.
  destruct (recv_loop os p (sd s) (recvBuffer s)) as [[[rb err] tr] rest] eqn:Hloop.
  destruct (recv_loop_received _ _ _ _ _ _ _ _ Hloop) as [Hrb Hev].
  assert (Hdiag : received (snd (recv_classify err)) = []
                  /\ forall e, In e (snd (recv_classify err)) ->
                       (exists e0, e = SystemDebug e0)
                       \/ (exists e0, e = SystemError e0 [])).
  { unfold recv_classify. destruct (err =? EAGAIN); [split; [reflexivity|intros e []]|].
    destruct ((err =? 0) || (err =? ECONNRESET)); (split; [reflexivity|]);
      intros e [<-|[]]; eauto. }
  destruct (recv_classify err) as [ret diag]. cbn [fst snd] in *.
  destruct Hdiag as [Hd1 Hd2].
  rewrite received_app, Hd1, app_nil_r.
  repeat split; try reflexivity; try exact Hrb.
  intros e He. apply in_app_or in He. destruct He as [He|He].
  - left. now apply Hev.
  - right. now apply Hd2.
Qed.

Lemma recv_script_split (os : list RecvReply) :
  exists rs,
    Forall (fun r => 0 < rcv_len r) rs
    /\ (os = rs \/ exists t rest, os = rs ++ t :: rest /\ rcv_len t <= 0).
Proof.
  induction os as [|r os (rs & Hpos & Hcase)].
  - exists []. split; [constructor | now left].
  - destruct (Z_lt_le_dec 0 (rcv_len r)) as [Hr|Hr].
    + exists (r :: rs). split; [now constructor|].
      destruct Hcase as [-> | (t & rest & -> & Ht)]; [now left|].
      right. exists t, rest. split; [reflexivity | exact Ht].
    + exists []. split; [constructor|]. right. exists r, os. split; [reflexivity|exact Hr].
Qed.

Lemma recv_loop_exhausted (p : Process) (fd : Z) :
  forall (rs : list RecvReply) (rb : list byte),
    Forall (fun r => 0 < rcv_len r) rs ->
    recv_loop rs p fd rb
      = (rb ++ flat_map (fun r => firstn (Z.to_nat (rcv_len r)) (rcv_data r)) rs,
         EAGAIN,
         map (SysRecv fd (recvBufSize p)) (rs ++ [recv_would_block]),
         []).
Proof.
  induction rs as [|r rs IH]; intros rb Hpos.
  - cbn. now rewrite app_nil_r.
  - inversion Hpos as [|? ? Hr Hrs]; subst.
    cbn [app recv_loop flat_map map].
    assert (E : (rcv_len r <=? 0) = false) by (apply Z.leb_gt; exact Hr).
    rewrite E, (IH _ Hrs). unfold seekRecvBuffer. now rewrite <- app_assoc.
Qed.

(** [recv()] reads until the first read that returns no positive length
    and stops there: it always makes at least one [::recv] call, all its
    reads but the last are positive, the [errno] of the last one alone
    decides the return value, and the replies after it are left unread.
    When the kernel has nothing more scripted, that last read is a
    would-block, and [recv()] returns 0. *)
Theorem recv_reads_until_refused (os : list RecvReply) (p : Process)
    (s : TEpollSocket) :
  exists (rs : list RecvReply) (t : RecvReply) (rest : list RecvReply),
    Forall (fun r => 0 < rcv_len r) rs
    /\ rcv_len t <= 0
    /\ filter is_SysRecv (recv_trace os p s)
       = map (SysRecv (sd s) (recvBufSize p)) (rs ++ [t])
    /\ recv_ret os p s = fst (recv_classify (rcv_errno t))
    /\ snd (recv os p s) = rest
    /\ (os = rs ++ t :: rest
        \/ os = rs /\ t = recv_would_block /\ rest = [] /\ recv_ret os p s = 0).
Proof.
  assert (Hfilter : forall l d,
            (forall e, In e d -> is_SysRecv e = false) ->
            filter is_SysRecv (map (SysRecv (sd s) (recvBufSize p)) l ++ d)
            = map (SysRecv (sd s) (recvBufSize p)) l).
  { intros l d Hd. rewrite filter_app, (filter_none _ d Hd), app_nil_r.
    induction l as [|x l IH]; cbn; [reflexivity | now rewrite IH]. }
  assert (Hdiag : forall err e, In e (snd (recv_classify err)) -> is_SysRecv e = false).
  { intros err e. unfold recv_classify. destruct (err =? EAGAIN); [intros []|].
    destruct ((err =? 0) || (err =? ECONNRESET)); intros [<-|[]]; reflexivity. }
  destruct (recv_script_split os) as (rs & Hpos & [-> | (t & rest & -> & Ht)]).
  - exists rs, recv_would_block, []. split; [exact Hpos|].
    split; [cbn; lia|].
    unfold recv_trace, recv_ret, recv.
    rewrite (recv_loop_exhausted p (sd s) rs _ Hpos).
    change (recv_classify EAGAIN) with (0, @nil Event). cbn [fst snd].
    split; [apply (Hfilter _ []); intros e []|].
    repeat split. right. repeat split.
  - exists rs, t, rest. split; [exact Hpos|]. split; [exact Ht|].
    destruct (recv_after_prefix rs t rest p s Hpos Ht) as [Hret Htr].
    rewrite Htr, Hret. split; [apply Hfilter, Hdiag|].
    split; [reflexivity|]. split; [|now left].
    unfold recv. rewrite (recv_loop_prefix p (sd s) t rest Ht rs _ Hpos).
    destruct (recv_classify (rcv_errno t)). reflexivity.
Qed.

(** * Further properties of the lifecycle *)

(** The descriptor is closed at most once: [close()] called before the
    destructor takes the destructor's own close away (the two together
    do exactly what the destructor alone does), [close()] after
    [close()] does nothing, and [close()] never touches the outbound
    queue. *)
Theorem descriptor_closed_once (s : TEpollSocket) :
  snd (close s) ++ snd (destroy (fst (close s))) = snd (destroy s)
  /\ fst (destroy (fst (close s))) = fst (destroy s)
  /\ close (fst (close s)) = (fst (close s), [])
  /\ sendBuf (fst (close s)) = sendBuf s
  /\ (length (filter is_SysClose (snd (destroy s))) <= 1)%nat.
Proof.
  unfold destroy, close.
  destruct (sd s >? 0) eqn:E; cbn [fst snd set_sd set_sendBuf sd sendBuf].
  - cbn [Z.gtb Z.compare fst snd set_sd set_sendBuf sd sendBuf app].
    repeat split. cbn [filter is_SysClose length].
    rewrite filter_map_Delete by reflexivity. cbn. lia.
  - rewrite E. cbn [fst snd set_sd set_sendBuf sd sendBuf app].
    repeat split.
    rewrite filter_map_Delete by reflexivity. cbn. lia.
Qed.

(** [setSocketDescpriter] replaces the descriptor without closing the
    one it replaces: a teardown that follows closes the new descriptor
    (when positive) and no other, whatever the old one was; the queue and
    the identifier are kept. *)
Theorem setSocketDescpriter_replaces (d : Z) (s : TEpollSocket) :
  filter is_SysClose (snd (destroy (setSocketDescpriter d s)))
    = (if d >? 0 then [SysClose d] else [])
  /\ snd (close (setSocketDescpriter d s))
     = (if d >? 0 then [SysClose d] else [])
  /\ sendBuf (setSocketDescpriter d s) = sendBuf s
  /\ identifier (setSocketDescpriter d s) = identifier s.
Proof.
  unfold destroy, close, setSocketDescpriter.
  cbn [set_sd sd sendBuf identifier].
  destruct (d >? 0); cbn [fst snd set_sd set_sendBuf sd sendBuf app filter is_SysClose];
    rewrite filter_map_Delete by reflexivity; repeat split.
Qed.

(** The two cases of [create()]. *)
Lemma create_cases (now : Z) (snd_reply rcv_reply : SockOptReply)
    (fd : Z) (p : Process) :
  (fd <= 0 -> create now snd_reply rcv_reply fd p = (None, p, []))
  /\ (0 < fd ->
      exists sock p' tr,
        create now snd_reply rcv_reply fd p = (Some sock, p', tr)
        /\ sd sock = fd /\ sendBuf sock = [] /\ recvBuffer sock = []
        /\ identifier sock
           = Z.lor (Z.shiftl (to_uint now) 32) (objectCounter p mod 2 ^ 32)
        /\ objectCounter p' = wrap_int32 (objectCounter p + 1)
        /\ (sockopt_value snd_reply <> 0 -> sendBufSize p' <> 0)
        /\ (sendBufSize p <> 0 ->
            sendBufSize p' = sendBufSize p /\ recvBufSize p' = recvBufSize p
            /\ tr = [])).
Proof.
  split.
  - intros Hfd. unfold create.
    assert (E : (fd >? 0) = false) by (rewrite Z.gtb_ltb; apply Z.ltb_ge; lia).
    now rewrite E.
  - intros Hfd. unfold create.
    assert (E : (fd >? 0) = true) by (apply Z.gtb_lt; lia). rewrite E.
    destruct (construct_identifier now fd p) as [Hid Hcnt].
    assert (Hsock : sd (fst (construct now fd p)) = fd
                    /\ sendBuf (fst (construct now fd p)) = []
                    /\ recvBuffer (fst (construct now fd p)) = []
                    /\ sendBufSize (snd (construct now fd p)) = sendBufSize p
                    /\ recvBufSize (snd (construct now fd p)) = recvBufSize p)
      by (repeat split).
    destruct (construct now fd p) as [sock p1]. cbn [fst snd] in *.
    destruct Hsock as (Hsd & Hq & Hrb & Hs1 & Hr1).
    unfold initBuffer. rewrite Hs1.
    destruct (sendBufSize p =? 0) eqn:Hz.
    + eexists _, _, _. split; [reflexivity|].
      cbn [sendBufSize recvBufSize objectCounter].
      apply Z.eqb_eq in Hz.
      do 5 (split; [assumption|]).
      split; [intros H; exact H | intros H; contradiction].
    + exists sock, p1, []. split; [reflexivity|].
      apply Z.eqb_neq in Hz.
      do 5 (split; [assumption|]).
      split; [intros _; now rewrite Hs1 | intros _; repeat split; assumption].
Qed.

(** [create()] refuses a descriptor that is not positive: it returns no
    connection, takes no counter value and makes no query.  For a
    positive descriptor it returns a connection on that descriptor with
    an empty queue and an empty receive buffer, advances the counter by
    one, and afterwards the send buffer size is known (not 0) unless the
    kernel itself reports 0. *)
Theorem create_refuses_or_builds (now : Z) (snd_reply rcv_reply : SockOptReply)
    (fd : Z) (p : Process) :
  (fd <= 0 -> create now snd_reply rcv_reply fd p = (None, p, []))
  /\ (0 < fd ->
      exists sock p' tr,
        create now snd_reply rcv_reply fd p = (Some sock, p', tr)
        /\ sd sock = fd /\ sendBuf sock = [] /\ recvBuffer sock = []
        /\ identifier sock
           = Z.lor (Z.shiftl (to_uint now) 32) (objectCounter p mod 2 ^ 32)
        /\ objectCounter p' = wrap_int32 (objectCounter p + 1)
        /\ (sockopt_value snd_reply <> 0 -> sendBufSize p' <> 0)
        /\ (sendBufSize p <> 0 ->
            sendBufSize p' = sendBufSize p /\ recvBufSize p' = recvBufSize p
            /\ tr = [])).
Proof.
  exact (create_cases now snd_reply rcv_reply fd p).
Qed.

Lemma create_refuses_or_builds_witness :
  create 1700000000 (mkSockOptReply 0 87040) (mkSockOptReply 0 87040) 0
    process_start
  = (None, process_start, []).
Proof.
  apply (proj1 (create_refuses_or_builds 1700000000 (mkSockOptReply 0 87040)
                  (mkSockOptReply 0 87040) 0 process_start)).
  lia.
Defined.

(** [accept()] returns a connection exactly when the descriptor it got is
    positive, and that connection is the one [create()] builds on it.  A
    negative descriptor gives no connection and leaves the process state
    alone, with a warning unless [errno] is [EAGAIN].  The descriptor 0
    passes the test of [accept()] but is refused by [create()]: no
    connection, no warning.  In every case exactly one [accept4] call is
    made, with the close-on-exec and non-blocking flags, and nothing is
    closed. *)
Theorem accept_result (reply : AcceptReply) (now : Z)
    (snd_reply rcv_reply : SockOptReply) (listeningSocket : Z) (p : Process) :
  let '(sock, p', tr) := accept reply now snd_reply rcv_reply listeningSocket p in
  (sock <> None <-> 0 < acc_fd reply)
  /\ (0 <= acc_fd reply ->
      (sock, p') = fst (create now snd_reply rcv_reply (acc_fd reply) p))
  /\ (acc_fd reply <= 0 -> p' = p)
  /\ (In (SystemWarn (acc_errno reply)) tr
      <-> acc_fd reply < 0 /\ acc_errno reply <> EAGAIN)
  /\ (exists tr', tr = SysAccept4 listeningSocket
                         (Z.lor SOCK_CLOEXEC SOCK_NONBLOCK) reply :: tr'
                  /\ forall l f r, ~ In (SysAccept4 l f r) tr')
  /\ (forall fd, ~ In (Created (SysClose fd)) tr)
  /\ Z.land (Z.lor SOCK_CLOEXEC SOCK_NONBLOCK) SOCK_CLOEXEC = SOCK_CLOEXEC
  /\ Z.land (Z.lor SOCK_CLOEXEC SOCK_NONBLOCK) SOCK_NONBLOCK = SOCK_NONBLOCK.
Proof.
  unfold accept.
  destruct (acc_fd reply <? 0) eqn:Hneg.
  - apply Z.ltb_lt in Hneg.
    split; [split; [intros H; now contradiction H | lia]|].
    split; [lia|]. split; [reflexivity|].
    split.
    { split.
      - intros [H|H]; [discriminate H|].
        destruct (acc_errno reply =? EAGAIN) eqn:E; [destruct H|].
        split; [exact Hneg | now apply Z.eqb_neq].
      - intros [_ H]. apply Z.eqb_neq in H. rewrite H. right. now left. }
    split.
    { eexists. split; [reflexivity|]. intros l f r.
      destruct (negb _); intros H; [destruct H as [H|[]]; discriminate H | destruct H]. }
    split; [|split; reflexivity].
    intros fd [H|H]; [discriminate H|].
    destruct (negb _); [destruct H as [H|[]]; discriminate H | destruct H].
  - apply Z.ltb_ge in Hneg.
    destruct (create_cases now snd_reply rcv_reply (acc_fd reply) p)
      as [Hno Hyes].
    assert (Hev : forall e, In e (snd (create now snd_reply rcv_reply (acc_fd reply) p)) ->
                    is_SysGetSockOpt e = true).
    { unfold create. destruct (acc_fd reply >? 0); [|intros e []].
      destruct (construct now (acc_fd reply) p) as [sock0 p1].
      unfold initBuffer. destruct (sendBufSize p1 =? 0); cbn [snd]; [|intros e []].
      intros e [<-|[<-|[]]]; reflexivity. }
    destruct (create now snd_reply rcv_reply (acc_fd reply) p) as [[sock p'] tr] eqn:Hc.
    cbn [fst snd] in *.
    split.
    { split.
      - intros Hs. destruct (Z_lt_le_dec 0 (acc_fd reply)) as [H|H]; [exact H|].
        specialize (Hno H). inversion Hno; subst. now contradiction Hs.
      - intros H. destruct (Hyes H) as (s0 & p0 & tr0 & E & _).
        inversion E; subst. discriminate. }
    split; [reflexivity|].
    split.
    { intros H. assert (H0 : acc_fd reply <= 0) by lia.
      specialize (Hno H0). now inversion Hno. }
    split.
    { split; [|lia]. intros [H|H]; [discriminate H|].
      apply in_map_iff in H. destruct H as (e & H & _). discriminate H. }
    split.
    { eexists. split; [reflexivity|]. intros l f r H.
      apply in_map_iff in H. destruct H as (e & H & _). discriminate H. }
    split; [|split; reflexivity].
    intros fd [H|H]; [discriminate H|].
    apply in_map_iff in H. destruct H as (e & H & He). inversion H; subst.
    apply Hev in He. discriminate He.
Qed.

(** An identifier can be taken apart again: its high half is the clock
    reading, its low half the counter value modulo [2^32], and it fits
    64 bits. *)
Theorem identifier_round_trip (now fd : Z) (p : Process) :
  let id := identifier (fst (construct now fd p)) in
  Z.shiftr id 32 = to_uint now
  /\ Z.land id 4294967295 = objectCounter p mod 2 ^ 32
  /\ 0 <= id < 2 ^ 64.
Proof.
  cbv zeta. destruct (construct_identifier now fd p) as [-> _].
  assert (Hlow : 0 <= objectCounter p mod 2 ^ 32 < 2 ^ 32)
    by (apply Z.mod_pos_bound; lia).
  assert (Hhigh : 0 <= to_uint now < 2 ^ 32)
    by (unfold to_uint; apply Z.mod_pos_bound; lia).
  destruct (identifier_halves (to_uint now) _ Hlow) as [Hh Hl].
  change 4294967295 with (Z.ones 32).
  split; [exact Hh|]. split; [exact Hl|].
  set (id := Z.lor (Z.shiftl (to_uint now) 32) (objectCounter p mod 2 ^ 32)) in *.
  assert (Hnn : 0 <= id).
  { apply Z.lor_nonneg. split; [apply Z.shiftl_nonneg|]; lia. }
  split; [exact Hnn|].
  rewrite Z.shiftr_div_pow2 in Hh by lia.
  pose proof (Z.div_mod id (2 ^ 32) ltac:(lia)) as Hdm.
  pose proof (Z.mod_pos_bound id (2 ^ 32) ltac:(lia)) as Hmb.
  rewrite Hh in Hdm. lia.
Qed.

(** * The bytes on the wire against the bytes enqueued *)

(** A head that fails takes its unsent bytes with it.  With ["abcde"]
    and then ["x"] enqueued, a kernel that takes two bytes and then
    resets the connection, and takes the next byte on the following
    call: the queue ends empty, and the wire carries ["abx"], not the
    bytes enqueued. *)
Lemma send_error_loses_bytes :
  Forall send_reply_honest (snd (run sample_process lossy_ops idle_socket))
  /\ concat (enqueued lossy_ops) = [x61; x62; x63; x64; x65; x78]
  /\ wire (snd (run sample_process lossy_ops idle_socket)) = [x61; x62; x78]
  /\ sendBuf (fst (run sample_process lossy_ops idle_socket)) = []
  /\ wire (snd (run sample_process lossy_ops idle_socket))
       ++ concat (map sb_data (sendBuf (fst (run sample_process lossy_ops
                                               idle_socket))))
     <> concat (enqueued lossy_ops).
Proof.
  split; [vm_compute; repeat constructor; discriminate|].
  split; [reflexivity|]. split; [reflexivity|]. split; [reflexivity|].
  vm_compute. discriminate.
Qed.

(** C1 (as the code has it): [send()] works on the head of the queue
    only: in one call a prefix [out] of the head's remaining bytes goes
    on the wire, and the head is left shorter by [out], or is dequeued
    and deleted, which happens with bytes left only when the call
    returns -1; the later entries stay in the queue as they are.  Over
    any sequence of enqueues and [send()] calls (the kernel never
    reporting more bytes than it was given), the payloads handed to the
    connection therefore split, in enqueue order, into the retired
    buffers, then the head, then the later entries, such that the wire
    carries exactly the sent prefix of each retired buffer, in that
    order, followed by the sent prefix of the head; the later entries
    are still whole, and what a retired buffer did not send is what it
    held when it was deleted.  When no buffer was deleted with bytes
    left, the wire followed by the queue content is byte for byte the
    concatenation of the payloads in enqueue order. *)
Theorem send_order_is_enqueue_order (p : Process) (s : TEpollSocket) :
  (forall (os : list SendReply) (h : TSendBuffer) (t : list TSendBuffer),
     sendBuf s = h :: t ->
     Forall send_reply_honest (send_trace os p s) ->
     exists (out : list byte) (h' : TSendBuffer),
       sb_data h = out ++ sb_data h'
       /\ wire (send_trace os p s) = out
       /\ (sendBuf (send_socket os p s) = h' :: t
             /\ deleted (send_trace os p s) = []
           \/ sendBuf (send_socket os p s) = t
             /\ deleted (send_trace os p s) = [h']
             /\ (sb_data h' = [] \/ send_ret os p s = -1)))
  /\ (forall ops : list Op,
       let s' := fst (run p ops s) in
       let tr := snd (run p ops s) in
       let all := map sb_data (sendBuf s) ++ enqueued ops in
       Forall send_reply_honest tr ->
       (exists (retired : list (list byte * list byte)) (head_sent : list byte),
          all = map (fun x => fst x ++ snd x) retired
                ++ pending head_sent (sendBuf s')
          /\ wire tr = concat (map fst retired) ++ head_sent
          /\ map sb_data (deleted tr) = map snd retired
          /\ (sendBuf s' = [] -> head_sent = []))
       /\ (Forall (fun b => sb_data b = []) (deleted tr) ->
           wire tr ++ concat (map sb_data (sendBuf s')) = concat all)).
Proof.
  split.
  - intros os h t Hq Hwf.
    destruct (send_head_only os p s h t Hq Hwf)
      as (out & left_over & Hdata & Hwire & [(h' & Hh' & Hq' & Hdel)
                                            | (h' & Hh' & Hq' & Hdel)]);
      exists out, h'; rewrite Hh'; [auto|].
    split; [exact Hdata|]. split; [exact Hwire|]. right.
    split; [exact Hq'|]. split; [exact Hdel|].
    destruct (send_retirement os p s h t Hq)
      as [(_ & _ & Hd & _) | (_ & _ & Hd & Hwhy)];
      rewrite Hdel in Hd; [discriminate Hd|].
    injection Hd as Hsame. rewrite <- Hsame in Hwhy.
    destruct Hwhy as [Hat | Hret]; [left | now right].
    unfold atEnd in Hat. rewrite Hh' in Hat.
    destruct left_over; [reflexivity | discriminate Hat].
  - intros ops s' tr all Hwf.
    pose proof (fifo_state_run p ops s _ _ _ (fifo_state_start (sendBuf s)) Hwf)
      as (retired & hs & Hall & Hsent & Hdrop & Hnil).
    cbn [app] in Hsent, Hdrop. fold s' tr all in Hall, Hsent, Hdrop, Hnil.
    split.
    + exists retired, hs. repeat split; assumption.
    + intros Hend. rewrite Hall, Hsent, concat_app, concat_pending by assumption.
      rewrite concat_whole_parts; [now rewrite app_assoc|].
      rewrite <- Hdrop. apply Forall_map.
      exact Hend.
Qed.

Lemma send_order_is_enqueue_order_witness :
  wire (snd (run sample_process sample_ops idle_socket))
    ++ concat (map sb_data (sendBuf (fst (run sample_process sample_ops idle_socket))))
  = sample_payload.
Proof.
  assert (Hwf : Forall send_reply_honest
                  (snd (run sample_process sample_ops idle_socket))).
  { vm_compute. repeat constructor; discriminate. }
  destruct (proj2 (send_order_is_enqueue_order sample_process idle_socket)
              sample_ops Hwf) as [_ H].
  apply H. vm_compute. repeat constructor.
Defined.
